(** * Route trie construction and middleware stacks of starlite

    A shallow embedding of [starlite/asgi/routing_trie/mapping.py]:
    [add_mount_route], [add_route_to_trie], [configure_node] and
    [build_route_middleware_stack].

    Trie nodes are Python objects that are shared: a mount node is linked
    both from the node its last component hangs off and from the root under
    the full path, and a node may even become its own child.  Nodes therefore
    live in a store (a list indexed by location) and [children] maps keys to
    locations, never to node values. *)

From stdpp Require Import base option list gmap sets strings countable.

(** ** Path components and trie keys *)

(** The declared type of a path parameter.  Only the identity test
    [component.type is Path] is made by the trie builder. *)
Inductive ParamType :=
  | TStr | TInt | TFloat | TUuid | TDecimal
  | TDate | TDatetime | TTime | TTimedelta | TPath.

#[global] Instance ParamType_eq_dec : EqDecision ParamType.
Proof. solve_decision. Defined.

Definition ParamType_to_nat (t : ParamType) : nat :=
  match t with
  | TStr => 0 | TInt => 1 | TFloat => 2 | TUuid => 3 | TDecimal => 4
  | TDate => 5 | TDatetime => 6 | TTime => 7 | TTimedelta => 8 | TPath => 9
  end.

Definition ParamType_of_nat (n : nat) : option ParamType :=
  match n with
  | 0 => Some TStr | 1 => Some TInt | 2 => Some TFloat | 3 => Some TUuid
  | 4 => Some TDecimal | 5 => Some TDate | 6 => Some TDatetime
  | 7 => Some TTime | 8 => Some TTimedelta | 9 => Some TPath
  | _ => None
  end.

#[global] Instance ParamType_countable : Countable ParamType.
Proof.
  apply (inj_countable ParamType_to_nat ParamType_of_nat).
  by intros [].
Defined.

(** [PathParameterDefinition] is a named tuple (hashable, compared by
    value); the parser callable it also carries plays no role here. *)
Record PathParameterDefinition := {
  pp_name : string;
  pp_full : string;
  pp_type : ParamType;
}.

#[global] Instance PathParameterDefinition_eq_dec :
  EqDecision PathParameterDefinition.
Proof. solve_decision. Defined.

#[global] Instance PathParameterDefinition_countable :
  Countable PathParameterDefinition.
Proof.
  apply (inj_countable'
           (fun p => (pp_name p, pp_full p, pp_type p))
           (fun t => {| pp_name := t.1.1; pp_full := t.1.2; pp_type := t.2 |})).
  by intros [].
Defined.

(** An element of [route.path_components]:
    [Union[str, PathParameterDefinition]]. *)
Inductive PathComponent :=
  | Lit (s : string)
  | Param (p : PathParameterDefinition).

(** A key of a node's [children] dict.  The builder uses three sorts of
    Python object as keys: strings, the class [PathParameterSentinel], and
    (in [add_mount_route], which indexes with the component itself) a
    parameter definition. *)
Inductive NodeKey :=
  | KStr (s : string)
  | PathParameterSentinel
  | KDef (p : PathParameterDefinition).

#[global] Instance NodeKey_eq_dec : EqDecision NodeKey.
Proof. solve_decision. Defined.

#[global] Instance NodeKey_countable : Countable NodeKey.
Proof.
  apply (inj_countable'
           (fun k => match k with
                     | KStr s => inl s
                     | PathParameterSentinel => inr (inl ())
                     | KDef p => inr (inr p)
                     end)
           (fun e => match e with
                     | inl s => KStr s
                     | inr (inl _) => PathParameterSentinel
                     | inr (inr p) => KDef p
                     end)).
  by intros [].
Defined.

(** The key [current_node.children[component]] uses in [add_mount_route]. *)
Definition component_key (c : PathComponent) : NodeKey :=
  match c with
  | Lit s => KStr s
  | Param p => KDef p
  end.

(** ** Applications, handlers and routes *)

Record CSRFConfig := { csrf_secret : string }.
Record CompressionConfig := { compression_backend : string }.
Record AllowedHostsConfig := { allowed_hosts_list : list string }.

(** The attributes of the [Starlite] instance the builder reads.  A
    configuration that is [None] is falsy, one that is set is truthy. *)
Record Starlite := {
  debug : bool;
  csrf_config : option CSRFConfig;
  compression_config : option CompressionConfig;
  allowed_hosts : option AllowedHostsConfig;
}.

(** One item of [route_handler.resolve_middleware()]: a callable taking
    [app], or an iterable unpacked into [(handler, kwargs)]. *)
Inductive Middleware :=
  | MPlain (factory : string)
  | MPair (factory : string) (kwargs : list (string * string)).

(** A route handler, as far as the builder looks into it. *)
Record RouteHandler := {
  handler_name : string;
  rh_is_mount : bool;
  rh_is_static : bool;
  resolve_exception_handlers : list (nat * string);
  resolve_middleware : list Middleware;
}.

#[global] Instance Middleware_eq_dec : EqDecision Middleware.
Proof. solve_decision. Defined.
#[global] Instance RouteHandler_eq_dec : EqDecision RouteHandler.
Proof. solve_decision. Defined.

(** The three route classes.  An [HTTPRoute] has no [route_handler]
    attribute but a [route_handler_map] from method to a pair whose first
    item is the handler. *)
Inductive RouteKind :=
  | HTTPRoute (route_handler_map : gmap string (RouteHandler * string))
  | WebSocketRoute (route_handler : RouteHandler)
  | ASGIRoute (route_handler : RouteHandler).

Record Route := {
  path : string;
  path_components : list PathComponent;
  path_parameters : list PathParameterDefinition;
  kind : RouteKind;
}.

(** ** The middleware stack *)

(** An ASGI application as the builder composes it: every layer keeps the
    application it wraps in its [app] argument.  [ExceptionHandlerMiddleware]
    is what [wrap_in_exception_handler] returns. *)
Inductive ASGIApp :=
  | RouteHandle (r : Route)
  | ExceptionHandlerMiddleware
      (app : ASGIApp) (exception_handlers : list (nat * string)) (dbg : bool)
  | CSRFMiddleware (app : ASGIApp) (config : CSRFConfig)
  | CompressionMiddleware (app : ASGIApp) (config : CompressionConfig)
  | AllowedHostsMiddleware (app : ASGIApp) (config : AllowedHostsConfig)
  | UserMiddleware
      (factory : string) (kwargs : list (string * string)) (app : ASGIApp).

(** Modelled from the spec: [starlite.asgi.utils.wrap_in_exception_handler],
    which is not among the sources; it wraps [app] in the exception-handling
    layer, built from the given handlers and debug flag. *)
Definition wrap_in_exception_handler
    (dbg : bool) (app : ASGIApp) (exception_handlers : list (nat * string))
  : ASGIApp :=
  ExceptionHandlerMiddleware app exception_handlers dbg.

(** The body of the loop over [route_handler.resolve_middleware()]. *)
Definition apply_middleware (asgi_handler : ASGIApp) (m : Middleware)
  : ASGIApp :=
  match m with
  | MPair handler kwargs => UserMiddleware handler kwargs asgi_handler
  | MPlain middleware => UserMiddleware middleware [] asgi_handler
  end.

Definition build_route_middleware_stack
    (app : Starlite) (route : Route) (route_handler : RouteHandler)
  : ASGIApp :=
  let asgi_handler :=
    wrap_in_exception_handler (debug app) (RouteHandle route)
      (resolve_exception_handlers route_handler) in
  let asgi_handler :=
    match csrf_config app with
    | Some c => CSRFMiddleware asgi_handler c
    | None => asgi_handler
    end in
  let asgi_handler :=
    match compression_config app with
    | Some c => CompressionMiddleware asgi_handler c
    | None => asgi_handler
    end in
  let asgi_handler :=
    match allowed_hosts app with
    | Some c => AllowedHostsMiddleware asgi_handler c
    | None => asgi_handler
    end in
  let asgi_handler :=
    foldl apply_middleware asgi_handler (resolve_middleware route_handler) in
  wrap_in_exception_handler (debug app) asgi_handler
    (resolve_exception_handlers route_handler).

(** *** Observing a stack *)

(** The layers of a stack. *)
Inductive Layer :=
  | LException (exception_handlers : list (nat * string)) (dbg : bool)
  | LCSRF (config : CSRFConfig)
  | LCompression (config : CompressionConfig)
  | LAllowedHosts (config : AllowedHostsConfig)
  | LUser (factory : string) (kwargs : list (string * string)).

(** The layers from the outermost one inwards, following [app], and the
    terminal application they end in.  An inbound request passes the layers
    in this order and the response passes them in the reverse order. *)
Fixpoint layers (a : ASGIApp) : list Layer :=
  match a with
  | RouteHandle _ => []
  | ExceptionHandlerMiddleware a' eh d => LException eh d :: layers a'
  | CSRFMiddleware a' c => LCSRF c :: layers a'
  | CompressionMiddleware a' c => LCompression c :: layers a'
  | AllowedHostsMiddleware a' c => LAllowedHosts c :: layers a'
  | UserMiddleware f kw a' => LUser f kw :: layers a'
  end.

Fixpoint terminal (a : ASGIApp) : Route :=
  match a with
  | RouteHandle r => r
  | ExceptionHandlerMiddleware a' _ _
  | CSRFMiddleware a' _
  | CompressionMiddleware a' _
  | AllowedHostsMiddleware a' _
  | UserMiddleware _ _ a' => terminal a'
  end.

Definition middleware_layer (m : Middleware) : Layer :=
  match m with
  | MPair handler kwargs => LUser handler kwargs
  | MPlain middleware => LUser middleware []
  end.

Definition is_exception_layer (l : Layer) : bool :=
  match l with LException _ _ => true | _ => false end.

Definition is_csrf_layer (l : Layer) : bool :=
  match l with LCSRF _ => true | _ => false end.

(** [outside x y ls]: some occurrence of layer [x] comes before (is further
    out than) some occurrence of layer [y] in [ls]. *)
Definition outside (x y : Layer) (ls : list Layer) : Prop :=
  ∃ i j, ls !! i = Some x ∧ ls !! j = Some y ∧ i < j.

(** The framework layers that the application's configuration switches on,
    outermost first. *)
Definition framework_layers (app : Starlite) : list Layer :=
  from_option (fun c => [LAllowedHosts c]) [] (allowed_hosts app)
  ++ from_option (fun c => [LCompression c]) [] (compression_config app)
  ++ from_option (fun c => [LCSRF c]) [] (csrf_config app).

(** ** Trie nodes and the node store *)

(** A location of the node store: the identity of a node object. *)
Abbreviation loc := nat (only parsing).

Record ASGIHandlerTuple := {
  asgi_app : ASGIApp;
  handler : RouteHandler;
}.

(** [RouteTrieNode].  [children] holds locations, since a node can be the
    child of several nodes.  [node_path_parameters] is the node's
    [path_parameters] attribute; [None] stands for an unset one. *)
Record RouteTrieNode := {
  asgi_handlers : gmap string ASGIHandlerTuple;
  child_keys : gset NodeKey;
  children : gmap NodeKey loc;
  is_asgi : bool;
  is_mount : bool;
  is_path_param_node : bool;
  is_path_type : bool;
  is_static : bool;
  node_path_parameters : option (gmap string (list PathParameterDefinition));
}.

Abbreviation store := (list RouteTrieNode) (only parsing).

(** Modelled from the spec: [create_node] of [routing_trie/types.py], which
    is not among the sources; a new node has no children, no handlers and
    every flag cleared. *)
Definition create_node : RouteTrieNode := {|
  asgi_handlers := ∅;
  child_keys := ∅;
  children := ∅;
  is_asgi := false;
  is_mount := false;
  is_path_param_node := false;
  is_path_type := false;
  is_static := false;
  node_path_parameters := Some ∅;
|}.

(** Attribute assignments. *)
Definition set_asgi_handlers (v : gmap string ASGIHandlerTuple)
    (n : RouteTrieNode) : RouteTrieNode :=
  {| asgi_handlers := v; child_keys := child_keys n; children := children n;
     is_asgi := is_asgi n; is_mount := is_mount n;
     is_path_param_node := is_path_param_node n;
     is_path_type := is_path_type n; is_static := is_static n;
     node_path_parameters := node_path_parameters n |}.

Definition set_child_keys (v : gset NodeKey) (n : RouteTrieNode)
  : RouteTrieNode :=
  {| asgi_handlers := asgi_handlers n; child_keys := v;
     children := children n;
     is_asgi := is_asgi n; is_mount := is_mount n;
     is_path_param_node := is_path_param_node n;
     is_path_type := is_path_type n; is_static := is_static n;
     node_path_parameters := node_path_parameters n |}.

Definition set_children (v : gmap NodeKey loc) (n : RouteTrieNode)
  : RouteTrieNode :=
  {| asgi_handlers := asgi_handlers n; child_keys := child_keys n;
     children := v;
     is_asgi := is_asgi n; is_mount := is_mount n;
     is_path_param_node := is_path_param_node n;
     is_path_type := is_path_type n; is_static := is_static n;
     node_path_parameters := node_path_parameters n |}.

Definition set_is_asgi (v : bool) (n : RouteTrieNode) : RouteTrieNode :=
  {| asgi_handlers := asgi_handlers n; child_keys := child_keys n;
     children := children n;
     is_asgi := v; is_mount := is_mount n;
     is_path_param_node := is_path_param_node n;
     is_path_type := is_path_type n; is_static := is_static n;
     node_path_parameters := node_path_parameters n |}.

Definition set_is_mount (v : bool) (n : RouteTrieNode) : RouteTrieNode :=
  {| asgi_handlers := asgi_handlers n; child_keys := child_keys n;
     children := children n;
     is_asgi := is_asgi n; is_mount := v;
     is_path_param_node := is_path_param_node n;
     is_path_type := is_path_type n; is_static := is_static n;
     node_path_parameters := node_path_parameters n |}.

Definition set_is_path_param_node (v : bool) (n : RouteTrieNode)
  : RouteTrieNode :=
  {| asgi_handlers := asgi_handlers n; child_keys := child_keys n;
     children := children n;
     is_asgi := is_asgi n; is_mount := is_mount n;
     is_path_param_node := v;
     is_path_type := is_path_type n; is_static := is_static n;
     node_path_parameters := node_path_parameters n |}.

Definition set_is_path_type (v : bool) (n : RouteTrieNode) : RouteTrieNode :=
  {| asgi_handlers := asgi_handlers n; child_keys := child_keys n;
     children := children n;
     is_asgi := is_asgi n; is_mount := is_mount n;
     is_path_param_node := is_path_param_node n;
     is_path_type := v; is_static := is_static n;
     node_path_parameters := node_path_parameters n |}.

Definition set_is_static (v : bool) (n : RouteTrieNode) : RouteTrieNode :=
  {| asgi_handlers := asgi_handlers n; child_keys := child_keys n;
     children := children n;
     is_asgi := is_asgi n; is_mount := is_mount n;
     is_path_param_node := is_path_param_node n;
     is_path_type := is_path_type n; is_static := v;
     node_path_parameters := node_path_parameters n |}.

Definition set_node_path_parameters
    (v : option (gmap string (list PathParameterDefinition)))
    (n : RouteTrieNode) : RouteTrieNode :=
  {| asgi_handlers := asgi_handlers n; child_keys := child_keys n;
     children := children n;
     is_asgi := is_asgi n; is_mount := is_mount n;
     is_path_param_node := is_path_param_node n;
     is_path_type := is_path_type n; is_static := is_static n;
     node_path_parameters := v |}.

(** [node.children[key] = child] *)
Definition set_child (key : NodeKey) (child : loc) (n : RouteTrieNode)
  : RouteTrieNode :=
  set_children (<[key := child]> (children n)) n.

(** Store operations.  Reading or writing a location that holds no node
    fails: Python has no dangling reference, so a run that fails this way
    corresponds to no execution of the source. *)
Definition upd (h : store) (l : loc) (f : RouteTrieNode → RouteTrieNode)
  : option store :=
  n ← h !! l; Some (<[l := f n]> h).

(** The object made by a [create_node()] call gets the next free location. *)
Definition alloc (h : store) : store * loc := (h ++ [create_node], length h).

(** [if key not in node.children: node.children[key] = create_node()],
    for the node at [l]. *)
Definition ensure_child (h : store) (l : loc) (key : NodeKey)
  : option store :=
  n ← h !! l;
  if decide (children n !! key = None)
  then let '(h', fresh) := alloc h in upd h' l (set_child key fresh)
  else Some h.

(** [node.children[key]], for the node at [l]. *)
Definition child_of (h : store) (l : loc) (key : NodeKey) : option loc :=
  n ← h !! l; children n !! key.

(** Following a sequence of keys down from the node at [l]. *)
Fixpoint descend (h : store) (l : loc) (keys : list NodeKey) : option loc :=
  match keys with
  | [] => Some l
  | key :: rest => next ← child_of h l key; descend h next rest
  end.

(** Every child link of the store leads to a node of the store. *)
Definition wf (h : store) : Prop :=
  ∀ l n key c, h !! l = Some n → children n !! key = Some c → c < length h.

(** [is_path_param_node] holds exactly when the sentinel is a child key. *)
Definition sentinel_ok (n : RouteTrieNode) : Prop :=
  is_path_param_node n = true ↔ PathParameterSentinel ∈ dom (children n).

(** [child_keys] is the set of the keys of [children]. *)
Definition child_keys_ok (n : RouteTrieNode) : Prop :=
  child_keys n = dom (children n).

(** The three collections the builder mutates. *)
Record TrieState := {
  nodes : store;
  mount_routes : gmap string loc;
  plain_routes : gset string;
}.

(** ** add_mount_route *)

(** One round of the loop over [route.path_components]. *)
Definition mount_step (h : store) (current_node : loc)
    (component : PathComponent) : option (store * loc) :=
  h1 ← ensure_child h current_node (component_key component);
  next ← child_of h1 current_node (component_key component);
  Some (h1, next).

Fixpoint mount_walk (h : store) (current_node : loc)
    (components : list PathComponent) : option (store * loc) :=
  match components with
  | [] => Some (h, current_node)
  | component :: rest =>
      '(h1, next) ← mount_step h current_node component;
      mount_walk h1 next rest
  end.

(** [route.route_handler]; an [HTTPRoute] has no such attribute. *)
Definition route_handler_of (route : Route) : option RouteHandler :=
  match kind route with
  | HTTPRoute _ => None
  | WebSocketRoute rh | ASGIRoute rh => Some rh
  end.

(** The statements of [add_mount_route] that follow its loop: the node
    reached is marked and registered. *)
Definition mark_mount (h1 : store) (st : TrieState) (root_node : loc)
    (current_node : loc) (route : Route) : option (TrieState * loc) :=
  h2 ← upd h1 current_node (set_is_mount true);
  rh ← route_handler_of route;
  h3 ← upd h2 current_node (set_is_static (rh_is_static rh));
  if decide (path route ≠ "/"%string)
  then
    h4 ← upd h3 root_node (set_child (KStr (path route)) current_node);
    Some ({| nodes := h4;
             mount_routes := <[path route := current_node]> (mount_routes st);
             plain_routes := plain_routes st |}, current_node)
  else
    Some ({| nodes := h3;
             mount_routes := <[path route := current_node]> (mount_routes st);
             plain_routes := plain_routes st |}, current_node).

Definition add_mount_route (current_node : loc) (st : TrieState)
    (root_node : loc) (route : Route) : option (TrieState * loc) :=
  n ← nodes st !! current_node;
  '(h1, root_node, current_node) ←
    (if decide (children n !! KStr (path route) = None)
     then '(h', last) ← mount_walk (nodes st) current_node
                                    (path_components route);
          Some (h', current_node, last)
     else Some (nodes st, root_node, current_node));
  mark_mount h1 st root_node current_node route.

(** ** configure_node *)

(** [not node.path_parameters]: the attribute is unset or an empty dict. *)
Definition path_parameters_falsy (n : RouteTrieNode) : bool :=
  match node_path_parameters n with
  | None => true
  | Some m => bool_decide (m = ∅)
  end.

(** The two item assignments made for one connection-kind key:
    [node.asgi_handlers[key] = ASGIHandlerTuple(...)] and
    [node.path_parameters[key] = route.path_parameters].  When they run the
    attribute [path_parameters] is a dict, the guard at the head of
    [configure_node] having seen to it. *)
Definition store_handler (app : Starlite) (route : Route) (key : string)
    (route_handler : RouteHandler) (node : RouteTrieNode) : RouteTrieNode :=
  let node :=
    set_asgi_handlers
      (<[key := {| asgi_app :=
                     build_route_middleware_stack app route route_handler;
                   handler := route_handler |}]> (asgi_handlers node))
      node in
  set_node_path_parameters
    (Some (<[key := path_parameters route]>
             (default ∅ (node_path_parameters node))))
    node.

(** The guard [if not node.path_parameters: node.path_parameters = {}]. *)
Definition guarded (node : RouteTrieNode) : RouteTrieNode :=
  if path_parameters_falsy node
  then set_node_path_parameters (Some ∅) node
  else node.

(** The body of the loop over [route.route_handler_map.items()]. *)
Definition store_item (app : Starlite) (route : Route) (node : RouteTrieNode)
    (item : string * (RouteHandler * string)) : RouteTrieNode :=
  let '(method, handler_mapping) := item in
  let '(handler, _) := handler_mapping in
  store_handler app route method handler node.

(** [configure_node] mutates the one node object it is given and nothing
    else, so it is a function on the node's value.  The items of
    [route_handler_map] have pairwise distinct methods, so the order in which
    the loop meets them does not show in the result. *)
Definition configure_node (app : Starlite) (route : Route)
    (node : RouteTrieNode) : RouteTrieNode :=
  let node := guarded node in
  match kind route with
  | HTTPRoute route_handler_map =>
      foldl (store_item app route) node (map_to_list route_handler_map)
  | WebSocketRoute route_handler =>
      store_handler app route "websocket" route_handler node
  | ASGIRoute route_handler =>
      set_is_asgi true (store_handler app route "asgi" route_handler node)
  end.

(** What [configure_node] is to leave on a node under [key] for
    [route_handler]: the composed stack with the unwrapped handler, and the
    route's parameter list. *)
Definition stored (app : Starlite) (route : Route) (key : string)
    (route_handler : RouteHandler) (node : RouteTrieNode) : Prop :=
  asgi_handlers node !! key
  = Some {| asgi_app := build_route_middleware_stack app route route_handler;
            handler := route_handler |}
  ∧ ∃ params, node_path_parameters node = Some params
              ∧ params !! key = Some (path_parameters route).

(** The keys under which a route is registered. *)
Definition declared_keys (route : Route) : gset string :=
  match kind route with
  | HTTPRoute route_handler_map => dom route_handler_map
  | WebSocketRoute _ => {["websocket"]}
  | ASGIRoute _ => {["asgi"]}
  end.

Definition is_asgi_route (route : Route) : bool :=
  match kind route with
  | ASGIRoute _ => true
  | _ => false
  end.

(** The entries of a node's [path_parameters], none when it is unset. *)
Definition path_parameters_of (node : RouteTrieNode)
  : gmap string (list PathParameterDefinition) :=
  default ∅ (node_path_parameters node).

(** The fields [configure_node] never assigns. *)
Definition same_shape (n n' : RouteTrieNode) : Prop :=
  children n' = children n
  ∧ child_keys n' = child_keys n
  ∧ is_mount n' = is_mount n
  ∧ is_static n' = is_static n
  ∧ is_path_param_node n' = is_path_param_node n
  ∧ is_path_type n' = is_path_type n.

(** ** add_route_to_trie *)

(** [hasattr(route, "route_handler") and
     getattr(route.route_handler, "is_mount", False)]; a handler class
    without [is_mount] is one whose [rh_is_mount] is false. *)
Definition is_mount_route (route : Route) : bool :=
  match kind route with
  | HTTPRoute _ => false
  | WebSocketRoute rh | ASGIRoute rh => rh_is_mount rh
  end.

(** [bool(route.path_parameters)] *)
Definition has_path_parameters (route : Route) : bool :=
  match path_parameters route with
  | [] => false
  | _ :: _ => true
  end.

Definition next_node_key (component : PathComponent) : NodeKey :=
  match component with
  | Param _ => PathParameterSentinel
  | Lit s => KStr s
  end.

(** [isinstance(component, PathParameterDefinition) and
     component.type is Path] *)
Definition is_path_component (component : PathComponent) : bool :=
  match component with
  | Param p => bool_decide (pp_type p = TPath)
  | Lit _ => false
  end.

(** One round of the loop over the components of a parameterized route. *)
Definition param_step (h : store) (current_node : loc)
    (component : PathComponent) : option (store * loc) :=
  h1 ← match component with
       | Param _ => upd h current_node (set_is_path_param_node true)
       | Lit _ => Some h
       end;
  h2 ← ensure_child h1 current_node (next_node_key component);
  h3 ← upd h2 current_node (fun n => set_child_keys (dom (children n)) n);
  next ← child_of h3 current_node (next_node_key component);
  h4 ← (if is_path_component component
        then upd h3 next (set_is_path_type true)
        else Some h3);
  Some (h4, next).

Fixpoint param_walk (h : store) (current_node : loc)
    (components : list PathComponent) : option (store * loc) :=
  match components with
  | [] => Some (h, current_node)
  | component :: rest =>
      '(h1, next) ← param_step h current_node component;
      param_walk h1 next rest
  end.

(** The branch for a route that is no mount and has no path parameter. *)
Definition add_plain_route (st : TrieState) (root_node : loc) (route : Route)
  : option (TrieState * loc) :=
  h1 ← ensure_child (nodes st) root_node (KStr (path route));
  current_node ← child_of h1 root_node (KStr (path route));
  Some ({| nodes := h1;
           mount_routes := mount_routes st;
           plain_routes := {[path route]} ∪ plain_routes st |},
        current_node).

(** The branch for a route with path parameters. *)
Definition add_param_route (st : TrieState) (root_node : loc) (route : Route)
  : option (TrieState * loc) :=
  '(h1, current_node) ←
    param_walk (nodes st) root_node (path_components route);
  Some ({| nodes := h1;
           mount_routes := mount_routes st;
           plain_routes := plain_routes st |},
        current_node).

Definition add_route_to_trie (app : Starlite) (st : TrieState)
    (root_node : loc) (route : Route) : option (TrieState * loc) :=
  '(st1, current_node) ←
    (if is_mount_route route
     then add_mount_route root_node st root_node route
     else if negb (has_path_parameters route)
     then add_plain_route st root_node route
     else add_param_route st root_node route);
  h ← upd (nodes st1) current_node (configure_node app route);
  Some ({| nodes := h;
           mount_routes := mount_routes st1;
           plain_routes := plain_routes st1 |},
        current_node).

(** A trie that holds nothing but a new root node, at location 0. *)
Definition fresh_trie : TrieState :=
  {| nodes := [create_node]; mount_routes := ∅; plain_routes := ∅ |}.

(** Adding routes one after the other, all from the same root. *)
Fixpoint add_routes (app : Starlite) (st : TrieState) (root_node : loc)
    (routes : list Route) : option TrieState :=
  match routes with
  | [] => Some st
  | route :: rest =>
      '(st1, _) ← add_route_to_trie app st root_node route;
      add_routes app st1 root_node rest
  end.

(** The number of exception-handling layers of a stack. *)
Definition exception_layer_count (a : ASGIApp) : nat :=
  length (List.filter is_exception_layer (layers a)).

(** ** How a walk changes the store *)

(** [links_added h h']: every node of [h] is still there in [h'], having
    at most gained children, and every node [h'] has beyond those of [h] is
    a new node that has at most gained children. *)
Definition links_added (h h' : store) : Prop :=
  length h ≤ length h'
  ∧ (∀ l n, h !! l = Some n →
            ∃ n', h' !! l = Some n'
                  ∧ children n ⊆ children n'
                  ∧ n' = set_children (children n') n)
  ∧ (∀ l n', length h ≤ l → h' !! l = Some n' →
             n' = set_children (children n') create_node).

(** [grows h h']: every node of [h] is still there in [h'], has kept the
    children it had under the keys it had, is still flagged [is_path_type]
    if it was, and still has an up-to-date [child_keys] if it had. *)
Definition grows (h h' : store) : Prop :=
  ∀ l n, h !! l = Some n →
         ∃ n', h' !! l = Some n'
               ∧ children n ⊆ children n'
               ∧ (is_path_type n = true → is_path_type n' = true)
               ∧ (child_keys_ok n → child_keys_ok n').

(** What one round of the loop over a parameterized route's components
    leaves of the node [n] it starts from, [fresh] being the location a
    new child would get. *)
Definition visited (component : PathComponent) (fresh : loc)
    (n : RouteTrieNode) : RouteTrieNode :=
  let n1 := match component with
            | Param _ => set_is_path_param_node true n
            | Lit _ => n
            end in
  let n2 := if decide (children n1 !! next_node_key component = None)
            then set_child (next_node_key component) fresh n1
            else n1 in
  set_child_keys (dom (children n2)) n2.

(** [keeps_child_keys h h']: no node of [h'] has had [child_keys]
    assigned since [h]; a node that [h] did not have has the empty set a
    new node starts with. *)
Definition keeps_child_keys (h h' : store) : Prop :=
  length h ≤ length h'
  ∧ ∀ l n', h' !! l = Some n' →
            child_keys n' = from_option child_keys ∅ (h !! l).

(** The handler a route registers under a connection-kind key, if any. *)
Definition declared_handler (route : Route) (key : string)
  : option RouteHandler :=
  match kind route with
  | HTTPRoute route_handler_map => fst <$> route_handler_map !! key
  | WebSocketRoute rh =>
      if decide (key = "websocket"%string) then Some rh else None
  | ASGIRoute rh => if decide (key = "asgi"%string) then Some rh else None
  end.

(** The pair stored for a handler. *)
Definition handler_tuple (app : Starlite) (route : Route)
    (route_handler : RouteHandler) : ASGIHandlerTuple :=
  {| asgi_app := build_route_middleware_stack app route route_handler;
     handler := route_handler |}.

(** ** What registering a route never takes away *)

(** [node_kept except n n']: [n'] has every child key, handler key and
    parameter key of [n] and every flag [n] had set, and its children under
    keys other than [except] are those of [n]. *)
Definition node_kept (except : option NodeKey) (n n' : RouteTrieNode)
  : Prop :=
  dom (children n) ⊆ dom (children n')
  ∧ (∀ key c, Some key ≠ except →
              children n !! key = Some c → children n' !! key = Some c)
  ∧ dom (asgi_handlers n) ⊆ dom (asgi_handlers n')
  ∧ dom (path_parameters_of n) ⊆ dom (path_parameters_of n')
  ∧ (is_mount n = true → is_mount n' = true)
  ∧ (is_asgi n = true → is_asgi n' = true)
  ∧ (is_path_param_node n = true → is_path_param_node n' = true)
  ∧ (is_path_type n = true → is_path_type n' = true).

(** [pointwise R h h']: every node of [h] is still there in [h'] and is
    related to what it was by [R]. *)
Definition pointwise (R : RouteTrieNode → RouteTrieNode → Prop)
    (h h' : store) : Prop :=
  ∀ l n, h !! l = Some n → ∃ n', h' !! l = Some n' ∧ R n n'.

(** The one child key a call may redirect: the path of a mount. *)
Definition redirected_key (route : Route) : option NodeKey :=
  if is_mount_route route then Some (KStr (path route)) else None.

(** What lookups rely on: every plain path is a child key of the root;
    every entry of [mount_routes] leads to a node marked as a mount, which
    for a path other than ["/"] is also the root's child under the path. *)
Definition indexes_ok (st : TrieState) (root : loc) : Prop :=
  (∀ p, p ∈ plain_routes st →
        is_Some (child_of (nodes st) root (KStr p)))
  ∧ (∀ p l, mount_routes st !! p = Some l →
            (∃ n, nodes st !! l = Some n ∧ is_mount n = true)
            ∧ (p ≠ "/"%string →
               child_of (nodes st) root (KStr p) = Some l)).

(** [same_handlers n n']: nothing has been registered on the node. *)
Definition same_handlers (n n' : RouteTrieNode) : Prop :=
  asgi_handlers n' = asgi_handlers n
  ∧ node_path_parameters n' = node_path_parameters n.

(** How many nodes a call may make at most: none for a mount whose path is
    a child key of the root already, one per component for another mount or
    a route with path parameters, one for any other route. *)
Definition new_nodes_bound (st : TrieState) (root : loc) (route : Route)
  : nat :=
  if is_mount_route route
  then match child_of (nodes st) root (KStr (path route)) with
       | Some _ => 0
       | None => length (path_components route)
       end
  else if has_path_parameters route
  then length (path_components route)
  else 1.

(** ** Sample applications, handlers and routes *)

Module Samples.
Definition csrf_app : Starlite :=
  {| debug := false;
     csrf_config := Some {| csrf_secret := "secret" |};
     compression_config := None;
     allowed_hosts := None |}.

Definition full_app : Starlite :=
  {| debug := true;
     csrf_config := Some {| csrf_secret := "secret" |};
     compression_config := Some {| compression_backend := "gzip" |};
     allowed_hosts := Some {| allowed_hosts_list := ["example.com"] |} |}.

(** A handler that resolves one middleware, [M]. *)
Definition guarded_handler : RouteHandler :=
  {| handler_name := "guarded";
     rh_is_mount := false;
     rh_is_static := false;
     resolve_exception_handlers := [(404, "not_found")];
     resolve_middleware := [MPlain "M"] |}.

Definition plain_handler : RouteHandler :=
  {| handler_name := "plain";
     rh_is_mount := false;
     rh_is_static := false;
     resolve_exception_handlers := [];
     resolve_middleware := [] |}.

Definition static_handler : RouteHandler :=
  {| handler_name := "static_files";
     rh_is_mount := true;
     rh_is_static := true;
     resolve_exception_handlers := [];
     resolve_middleware := [] |}.

Definition p_id : PathParameterDefinition :=
  {| pp_name := "id"; pp_full := "id:int"; pp_type := TInt |}.
Definition p_name : PathParameterDefinition :=
  {| pp_name := "name"; pp_full := "name:str"; pp_type := TStr |}.
Definition p_rest : PathParameterDefinition :=
  {| pp_name := "rest"; pp_full := "rest:path"; pp_type := TPath |}.

(** [GET /health] *)
Definition health_route : Route :=
  {| path := "/health";
     path_components := [Lit "health"];
     path_parameters := [];
     kind := HTTPRoute {[ "GET" := (guarded_handler, "health") ]} |}.

(** [GET, POST /users/{id:int}] *)
Definition user_route : Route :=
  {| path := "/users/{id:int}";
     path_components := [Lit "users"; Param p_id];
     path_parameters := [p_id];
     kind := HTTPRoute {[ "GET" := (plain_handler, "get_user");
                          "POST" := (guarded_handler, "set_user") ]} |}.

(** [GET /files/{rest:path}] *)
Definition files_route : Route :=
  {| path := "/files/{rest:path}";
     path_components := [Lit "files"; Param p_rest];
     path_parameters := [p_rest];
     kind := HTTPRoute {[ "GET" := (plain_handler, "get_file") ]} |}.

(** a websocket at [/ws/{name:str}] *)
Definition socket_route : Route :=
  {| path := "/ws/{name:str}";
     path_components := [Lit "ws"; Param p_name];
     path_parameters := [p_name];
     kind := WebSocketRoute plain_handler |}.

(** static files mounted at [/static/assets] *)
Definition static_route : Route :=
  {| path := "/static/assets";
     path_components := [Lit "static"; Lit "assets"];
     path_parameters := [];
     kind := ASGIRoute static_handler |}.

(** static files mounted at [/health], the path of [health_route] *)
Definition clash_route : Route :=
  {| path := "/health";
     path_components := [Lit "health"];
     path_parameters := [];
     kind := ASGIRoute static_handler |}.

(** The trie after [health_route] has been added to a new one. *)
Definition health_trie : TrieState :=
  match add_route_to_trie csrf_app fresh_trie 0 health_route with
  | Some (st, _) => st
  | None => fresh_trie
  end.

(** [DELETE /users/{name:str}]: the shape of [user_route], another
    parameter *)
Definition member_route : Route :=
  {| path := "/users/{name:str}";
     path_components := [Lit "users"; Param p_name];
     path_parameters := [p_name];
     kind := HTTPRoute {[ "DELETE" := (plain_handler, "drop_member") ]} |}.
End Samples.

(** * Properties of the middleware stack *)

Section stack.
Variables (app : Starlite) (route : Route) (route_handler : RouteHandler).

Lemma layers_foldl_apply_middleware (ms : list Middleware) (a : ASGIApp) :
  layers (foldl apply_middleware a ms)
  = rev (middleware_layer <$> ms) ++ layers a.
Proof.
  revert a. induction ms as [|m ms IH]; intros a; simpl; [done|].
  rewrite IH, <- app_assoc. by destruct m.
Qed.

Lemma terminal_foldl_apply_middleware (ms : list Middleware) (a : ASGIApp) :
  terminal (foldl apply_middleware a ms) = terminal a.
Proof.
  revert a. induction ms as [|m ms IH]; intros a; simpl; [done|].
  rewrite IH. by destruct m.
Qed.

(** The whole stack, outermost layer first: the outer exception wrapper,
    the route's middleware (the one resolved last outermost), the
    framework layers, the inner exception wrapper. *)
Lemma layers_build_route_middleware_stack :
  layers (build_route_middleware_stack app route route_handler)
  = LException (resolve_exception_handlers route_handler) (debug app)
    :: rev (middleware_layer <$> resolve_middleware route_handler)
    ++ framework_layers app
    ++ [LException (resolve_exception_handlers route_handler) (debug app)].
Proof.
  unfold build_route_middleware_stack, wrap_in_exception_handler,
    framework_layers.
  simpl. rewrite layers_foldl_apply_middleware. f_equal. f_equal.
  destruct (allowed_hosts app), (compression_config app), (csrf_config app);
    reflexivity.
Qed.

Lemma terminal_build_route_middleware_stack :
  terminal (build_route_middleware_stack app route route_handler) = route.
Proof.
  unfold build_route_middleware_stack, wrap_in_exception_handler. simpl.
  rewrite terminal_foldl_apply_middleware.
  by destruct (allowed_hosts app), (compression_config app),
    (csrf_config app).
Qed.

Lemma framework_layer_not_user (l : Layer) :
  l ∈ framework_layers app → ∀ m, l ≠ middleware_layer m.
Proof.
  unfold framework_layers. intros Hin m ->.
  rewrite !elem_of_app in Hin.
  destruct (allowed_hosts app), (compression_config app), (csrf_config app);
    simpl in Hin;
    rewrite ?list_elem_of_singleton, ?elem_of_nil in Hin;
    destruct m; naive_solver.
Qed.

Lemma framework_layer_not_exception (l : Layer) :
  l ∈ framework_layers app → is_exception_layer l = false.
Proof.
  unfold framework_layers. intros Hin.
  rewrite !elem_of_app in Hin.
  destruct (allowed_hosts app), (compression_config app), (csrf_config app);
    simpl in Hin;
    rewrite ?list_elem_of_singleton, ?elem_of_nil in Hin;
    naive_solver.
Qed.

Lemma user_layer_not_exception (ms : list Middleware) (l : Layer) :
  l ∈ rev (middleware_layer <$> ms) → is_exception_layer l = false.
Proof.
  rewrite list_elem_of_In, <- in_rev, <- list_elem_of_In.
  intros (m & -> & _)%list_elem_of_fmap. by destruct m.
Qed.
End stack.

Lemma filter_exception_layers_nil (ls : list Layer) :
  Forall (λ l, is_exception_layer l = false) ls →
  List.filter is_exception_layer ls = [].
Proof.
  induction 1 as [|l ls Hl _ IH]; simpl; [done|]. by rewrite Hl.
Qed.

Lemma outside_app_intro (x y : Layer) (pre us fs post : list Layer) :
  x ∈ us → y ∈ fs → outside x y (pre ++ us ++ fs ++ post).
Proof.
  intros (i & Hi)%list_elem_of_lookup (j & Hj)%list_elem_of_lookup.
  exists (length pre + i), (length pre + (length us + j)).
  split_and!.
  - rewrite lookup_app_r by lia.
    replace (length pre + i - length pre) with i by lia.
    by apply lookup_app_l_Some.
  - rewrite lookup_app_r by lia.
    replace (length pre + (length us + j) - length pre)
      with (length us + j) by lia.
    rewrite lookup_app_r by lia.
    replace (length us + j - length us) with j by lia.
    by apply lookup_app_l_Some.
  - apply lookup_lt_Some in Hi. lia.
Qed.

Lemma outside_app_elim (x y : Layer) (e : Layer) (us fs : list Layer) :
  outside x y (e :: us ++ fs ++ [e]) →
  x ≠ e → y ≠ e → x ∉ us → y ∉ fs → False.
Proof.
  intros (i & j & Hi & Hj & Hlt) Hxe Hye Hx Hy.
  destruct i as [|i]; [simpl in Hi; congruence|].
  destruct j as [|j]; [lia|]. simpl in Hi, Hj.
  apply lookup_app_Some in Hi as [Hi|[Hlen Hi]].
  { apply Hx. eapply list_elem_of_lookup_2; eauto. }
  apply lookup_app_Some in Hj as [Hj|[Hlen' Hj]].
  { apply lookup_lt_Some in Hj. lia. }
  apply lookup_app_Some in Hj as [Hj|[Hlen'' Hj]].
  { apply Hy. eapply list_elem_of_lookup_2; eauto. }
  apply list_lookup_singleton_Some in Hj as [_ Hj]. congruence.
Qed.

(** C1, as stated, fails: for the handler that resolves the one middleware
    [M], in an application with CSRF configured, the CSRF layer is not
    outside [M].  The stack is exception wrapper, [M], CSRF, exception
    wrapper, so [M] runs first on the way in. *)
Lemma csrf_not_outside_route_middleware :
  ¬ (∀ (app : Starlite) (route : Route) (route_handler : RouteHandler)
       (M : Middleware) (c : CSRFConfig),
        M ∈ resolve_middleware route_handler →
        csrf_config app = Some c →
        outside (LCSRF c) (middleware_layer M)
          (layers (build_route_middleware_stack app route route_handler))).
Proof.
  intros H.
  specialize (H Samples.csrf_app Samples.health_route Samples.guarded_handler
                (MPlain "M") {| csrf_secret := "secret" |}).
  destruct H as (i & j & Hi & Hj & Hlt); [constructor|reflexivity|].
  vm_compute in Hi, Hj.
  destruct i as [|[|[|[|i]]]]; simplify_eq.
  destruct j as [|[|[|[|j]]]]; simplify_eq; lia.
Qed.

(** C1, amended: the stack is the outer exception wrapper, the route's
    middleware, the framework layers that are switched on (host allow-list,
    compression, CSRF), the inner exception wrapper.  So every middleware
    [M] the route handler resolves is outside each framework layer and none
    of these is outside [M]; in particular [M] is outside the CSRF layer:
    [M] meets the request before CSRF validation and the response after
    it. *)
Theorem route_middleware_outside_framework_layers
    (app : Starlite) (route : Route) (route_handler : RouteHandler)
    (M : Middleware) :
  M ∈ resolve_middleware route_handler →
  let stack := layers (build_route_middleware_stack app route route_handler) in
  let wrapper :=
    LException (resolve_exception_handlers route_handler) (debug app) in
  stack = wrapper
          :: rev (middleware_layer <$> resolve_middleware route_handler)
          ++ framework_layers app ++ [wrapper]
  ∧ (∀ F, F ∈ framework_layers app →
          outside (middleware_layer M) F stack
          ∧ ¬ outside F (middleware_layer M) stack)
  ∧ (∀ c, csrf_config app = Some c →
          outside (middleware_layer M) (LCSRF c) stack
          ∧ ¬ outside (LCSRF c) (middleware_layer M) stack).
Proof.
  intros HM stack wrapper.
  split; [apply layers_build_route_middleware_stack|].
  assert (Hfw : ∀ F, F ∈ framework_layers app →
                outside (middleware_layer M) F stack
                ∧ ¬ outside F (middleware_layer M) stack).
  { intros F HF. subst stack.
    rewrite layers_build_route_middleware_stack. split.
    - apply (outside_app_intro _ _ [_]); [|done].
      rewrite list_elem_of_In, <- in_rev, <- list_elem_of_In.
      by apply list_elem_of_fmap_2.
    - intros Hout. eapply outside_app_elim; [exact Hout|..].
      + intros ->. by apply framework_layer_not_exception in HF.
      + by destruct M.
      + intros HF'. apply user_layer_not_exception in HF' as HF''.
        rewrite list_elem_of_In, <- in_rev, <- list_elem_of_In in HF'.
        apply list_elem_of_fmap in HF' as (m & -> & _).
        by eapply framework_layer_not_user.
      + intros HM'. by eapply framework_layer_not_user. }
  split; [exact Hfw|].
  intros c Hc. apply Hfw. unfold framework_layers. rewrite Hc.
  rewrite !elem_of_app. right. right. constructor.
Qed.

Lemma route_middleware_outside_framework_layers_witness :
  let stack :=
    layers (build_route_middleware_stack
              Samples.full_app Samples.health_route Samples.guarded_handler) in
  MPlain "M" ∈ resolve_middleware Samples.guarded_handler
  ∧ (∀ F, F ∈ framework_layers Samples.full_app →
          outside (LUser "M" []) F stack ∧ ¬ outside F (LUser "M" []) stack)
  ∧ (∀ c, csrf_config Samples.full_app = Some c →
          outside (LUser "M" []) (LCSRF c) stack
          ∧ ¬ outside (LCSRF c) (LUser "M" []) stack).
Proof.
  assert (HM : MPlain "M" ∈ resolve_middleware Samples.guarded_handler)
    by constructor.
  split; [exact HM|].
  exact (proj2 (route_middleware_outside_framework_layers
                  Samples.full_app Samples.health_route
                  Samples.guarded_handler (MPlain "M") HM)).
Defined.

(** C2: the builder applies the exception-handling wrapper exactly twice.
    The outer instance wraps the whole stack, the inner one is the last
    layer before the terminal [route.handle], no layer in between is an
    exception wrapper, and both are built from
    [route_handler.resolve_exception_handlers()] and [app.debug]. *)
Theorem exception_wrapper_applied_twice
    (app : Starlite) (route : Route) (route_handler : RouteHandler) :
  let eh := resolve_exception_handlers route_handler in
  ∃ (inner : ASGIApp) (between : list Layer),
    build_route_middleware_stack app route route_handler
    = ExceptionHandlerMiddleware inner eh (debug app)
    ∧ layers inner = between ++ [LException eh (debug app)]
    ∧ terminal inner = route
    ∧ Forall (λ l, is_exception_layer l = false) between
    ∧ exception_layer_count
        (build_route_middleware_stack app route route_handler) = 2.
Proof.
  intros eh.
  pose proof (layers_build_route_middleware_stack app route route_handler)
    as HL.
  pose proof (terminal_build_route_middleware_stack app route route_handler)
    as HT.
  assert (Hbetween :
    Forall (λ l, is_exception_layer l = false)
      (rev (middleware_layer <$> resolve_middleware route_handler)
       ++ framework_layers app)).
  { apply Forall_app. split; apply list.Forall_forall.
    - apply user_layer_not_exception.
    - apply framework_layer_not_exception. }
  unfold exception_layer_count. rewrite HL.
  unfold build_route_middleware_stack, wrap_in_exception_handler in *.
  simpl in HL, HT. injection HL as HL. fold eh in HL |- *.
  eexists _, _. split; [reflexivity|].
  split; [by rewrite HL, app_assoc|].
  split; [exact HT|]. split; [exact Hbetween|].
  simpl. rewrite app_assoc, List.filter_app. simpl.
  rewrite length_app. simpl.
  by rewrite (filter_exception_layers_nil _ Hbetween).
Qed.

(** * Properties of configure_node *)

Section configure.
Variables (app : Starlite) (route : Route).

Lemma store_handler_stored key rh n :
  stored app route key rh (store_handler app route key rh n).
Proof.
  split; simpl; [by rewrite lookup_insert_eq|].
  eexists. split; [reflexivity|]. by rewrite lookup_insert_eq.
Qed.

Lemma store_handler_keeps_stored key rh key' rh' n :
  key ≠ key' →
  stored app route key rh n →
  stored app route key rh (store_handler app route key' rh' n).
Proof.
  intros Hne [Hh (params & Hp & Hk)]. split; simpl.
  - by rewrite lookup_insert_ne.
  - eexists. split; [reflexivity|]. rewrite Hp. simpl.
    by rewrite lookup_insert_ne.
Qed.

Lemma store_handler_frame key key' rh' n :
  key ≠ key' →
  asgi_handlers (store_handler app route key' rh' n) !! key
  = asgi_handlers n !! key
  ∧ path_parameters_of (store_handler app route key' rh' n) !! key
    = path_parameters_of n !! key.
Proof.
  intros Hne. unfold path_parameters_of. simpl.
  by rewrite !lookup_insert_ne.
Qed.

Lemma store_handler_dom key rh n :
  dom (asgi_handlers (store_handler app route key rh n))
  = dom (asgi_handlers n) ∪ {[key]}
  ∧ dom (path_parameters_of (store_handler app route key rh n))
    = dom (path_parameters_of n) ∪ {[key]}.
Proof.
  unfold path_parameters_of. simpl. rewrite !dom_insert_L. set_solver.
Qed.

Lemma store_handler_same_shape key rh n :
  same_shape n (store_handler app route key rh n)
  ∧ is_asgi (store_handler app route key rh n) = is_asgi n.
Proof. done. Qed.

Lemma same_shape_trans n1 n2 n3 :
  same_shape n1 n2 → same_shape n2 n3 → same_shape n1 n3.
Proof. unfold same_shape. intros ? ?. destruct_and!. split_and!; congruence. Qed.

(** The loop over the handler map, on any list of items. *)
Lemma foldl_store_item_keeps_stored items key rh n :
  key ∉ items.*1 →
  stored app route key rh n →
  stored app route key rh (foldl (store_item app route) n items).
Proof.
  revert n. induction items as [|[k [h i]] items IH]; intros n Hk Hs;
    simpl; [done|].
  simpl in Hk. apply not_elem_of_cons in Hk as [Hne Hk].
  apply IH; [done|]. by apply store_handler_keeps_stored.
Qed.

Lemma foldl_store_item_stored items key rh info n :
  NoDup items.*1 →
  (key, (rh, info)) ∈ items →
  stored app route key rh (foldl (store_item app route) n items).
Proof.
  revert n. induction items as [|[k [h i]] items IH]; intros n Hnd Hin;
    simpl; [by apply elem_of_nil in Hin|].
  simpl in Hnd. apply list.NoDup_cons in Hnd as [Hk Hnd].
  apply elem_of_cons in Hin as [Heq|Hin].
  - simplify_eq. apply foldl_store_item_keeps_stored; [done|].
    apply store_handler_stored.
  - by apply IH.
Qed.

Lemma foldl_store_item_frame items key n :
  key ∉ items.*1 →
  asgi_handlers (foldl (store_item app route) n items) !! key
  = asgi_handlers n !! key
  ∧ path_parameters_of (foldl (store_item app route) n items) !! key
    = path_parameters_of n !! key.
Proof.
  revert n. induction items as [|[k [h i]] items IH]; intros n Hk;
    simpl; [done|].
  simpl in Hk. apply not_elem_of_cons in Hk as [Hne Hk].
  destruct (IH (store_handler app route k h n) Hk) as [-> ->].
  by apply store_handler_frame.
Qed.

Lemma foldl_store_item_dom items n :
  dom (asgi_handlers (foldl (store_item app route) n items))
  = dom (asgi_handlers n) ∪ list_to_set items.*1
  ∧ dom (path_parameters_of (foldl (store_item app route) n items))
    = dom (path_parameters_of n) ∪ list_to_set items.*1.
Proof.
  revert n. induction items as [|[k [h i]] items IH]; intros n; simpl.
  - split; set_solver.
  - destruct (IH (store_handler app route k h n)) as [-> ->].
    destruct (store_handler_dom k h n) as [-> ->]. split; set_solver.
Qed.

Lemma foldl_store_item_same_shape items n :
  same_shape n (foldl (store_item app route) n items)
  ∧ is_asgi (foldl (store_item app route) n items) = is_asgi n.
Proof.
  revert n. induction items as [|[k [h i]] items IH]; intros n; simpl;
    [done|].
  destruct (IH (store_handler app route k h n)) as [Hs ->]. split; [|done].
  eapply same_shape_trans; [|exact Hs]. done.
Qed.

(** After the guard the attribute [path_parameters] is a dict. *)
Lemma foldl_store_item_is_Some items n :
  is_Some (node_path_parameters n) →
  is_Some (node_path_parameters (foldl (store_item app route) n items)).
Proof.
  revert n. induction items as [|[k [h i]] items IH]; intros n Hn; simpl;
    [done|].
  apply IH. by eexists.
Qed.

Lemma guarded_spec node :
  asgi_handlers (guarded node) = asgi_handlers node
  ∧ path_parameters_of (guarded node) = path_parameters_of node
  ∧ is_Some (node_path_parameters (guarded node))
  ∧ same_shape node (guarded node)
  ∧ is_asgi (guarded node) = is_asgi node.
Proof.
  unfold guarded, path_parameters_falsy, path_parameters_of.
  destruct node as [? ? ? ? ? ? ? ? [m|]]; simpl.
  - case_bool_decide; subst; simpl; split_and!; by eauto.
  - split_and!; by eauto.
Qed.

Lemma configure_node_unfold node :
  configure_node app route node
  = match kind route with
    | HTTPRoute route_handler_map =>
        foldl (store_item app route) (guarded node)
              (map_to_list route_handler_map)
    | WebSocketRoute rh =>
        store_handler app route "websocket" rh (guarded node)
    | ASGIRoute rh =>
        set_is_asgi true (store_handler app route "asgi" rh (guarded node))
    end.
Proof. reflexivity. Qed.

Lemma configure_node_same_shape node :
  same_shape node (configure_node app route node).
Proof.
  rewrite configure_node_unfold.
  destruct (guarded_spec node) as (_ & _ & _ & Hshape & _).
  eapply same_shape_trans; [exact Hshape|].
  destruct (kind route) as [rhm|rh|rh].
  - apply foldl_store_item_same_shape.
  - done.
  - done.
Qed.

Lemma configure_node_children node :
  children (configure_node app route node) = children node.
Proof. by destruct (configure_node_same_shape node) as [? _]. Qed.
End configure.

(** C8: what [configure_node] stores.  For an HTTP route every method of
    the handler map gets the pair of the stack composed for that method's
    handler and the handler itself, and the route's parameter list; a
    WebSocket route gets the same under ["websocket"]; a raw ASGI route
    under ["asgi"], and the node's [is_asgi] is set. *)
Theorem configure_node_stores
    (app : Starlite) (route : Route) (node : RouteTrieNode) :
  let node' := configure_node app route node in
  (∀ route_handler_map method rh info,
      kind route = HTTPRoute route_handler_map →
      route_handler_map !! method = Some (rh, info) →
      stored app route method rh node')
  ∧ (∀ rh, kind route = WebSocketRoute rh →
           stored app route "websocket" rh node')
  ∧ (∀ rh, kind route = ASGIRoute rh →
           stored app route "asgi" rh node' ∧ is_asgi node' = true).
Proof.
  intros node'. subst node'. rewrite configure_node_unfold.
  split_and!.
  - intros rhm method rh info -> Hm.
    eapply foldl_store_item_stored.
    + apply NoDup_fst_map_to_list.
    + apply elem_of_map_to_list. exact Hm.
  - intros rh ->. apply store_handler_stored.
  - intros rh ->. split; [|done].
    destruct (store_handler_stored app route "asgi" rh (guarded node))
      as [Hh Hp].
    split; [exact Hh|exact Hp].
Qed.

Lemma configure_node_stores_witness :
  stored Samples.full_app Samples.user_route "POST" Samples.guarded_handler
    (configure_node Samples.full_app Samples.user_route create_node)
  ∧ stored Samples.full_app Samples.socket_route "websocket"
      Samples.plain_handler
      (configure_node Samples.full_app Samples.socket_route create_node)
  ∧ stored Samples.full_app Samples.static_route "asgi"
      Samples.static_handler
      (configure_node Samples.full_app Samples.static_route create_node)
  ∧ is_asgi (configure_node Samples.full_app Samples.static_route create_node)
    = true.
Proof.
  split_and!.
  - refine (proj1 (configure_node_stores
                     Samples.full_app Samples.user_route create_node)
              _ "POST"%string Samples.guarded_handler _ eq_refl _).
    reflexivity.
  - exact (proj1 (proj2 (configure_node_stores
                           Samples.full_app Samples.socket_route create_node))
             _ eq_refl).
  - exact (proj1 (proj2 (proj2 (configure_node_stores
                           Samples.full_app Samples.static_route create_node))
                    _ eq_refl)).
  - exact (proj2 (proj2 (proj2 (configure_node_stores
                           Samples.full_app Samples.static_route create_node))
                    _ eq_refl)).
Defined.

(** C10: the frame of [configure_node].  Entries under keys the route does
    not declare stay as they were, in [asgi_handlers] and in
    [path_parameters]; the keys of both grow by exactly the declared ones;
    [path_parameters] is a dict afterwards, one that was unset or empty
    having been replaced by an empty dict before the entries were written;
    [children], [child_keys] and the four shape flags are untouched, and
    [is_asgi] changes only for a raw ASGI route, for which it is set. *)
Theorem configure_node_frame
    (app : Starlite) (route : Route) (node : RouteTrieNode) :
  let node' := configure_node app route node in
  (∀ key, key ∉ declared_keys route →
          asgi_handlers node' !! key = asgi_handlers node !! key
          ∧ path_parameters_of node' !! key = path_parameters_of node !! key)
  ∧ dom (asgi_handlers node') = dom (asgi_handlers node) ∪ declared_keys route
  ∧ dom (path_parameters_of node')
    = dom (path_parameters_of node) ∪ declared_keys route
  ∧ is_Some (node_path_parameters node')
  ∧ (declared_keys route = ∅ →
     node_path_parameters node'
     = if path_parameters_falsy node then Some ∅
       else node_path_parameters node)
  ∧ same_shape node node'
  ∧ is_asgi node' = (if is_asgi_route route then true else is_asgi node).
Proof.
  intros node'. subst node'. rewrite configure_node_unfold.
  destruct (guarded_spec node) as (Hga & Hgp & Hgs & Hgshape & Hgasgi).
  unfold declared_keys, is_asgi_route.
  destruct (kind route) as [rhm|rh|rh].
  - split_and!.
    + intros key Hkey.
      destruct (foldl_store_item_frame app route (map_to_list rhm) key
                  (guarded node)) as [-> ->].
      * intros Hin. apply Hkey. apply list_elem_of_fmap in Hin
          as ([k v] & -> & Hin). apply elem_of_map_to_list in Hin.
        apply elem_of_dom. by eexists.
      * by rewrite Hga, Hgp.
    + destruct (foldl_store_item_dom app route (map_to_list rhm)
                  (guarded node)) as [-> _].
      rewrite Hga. f_equal. symmetry. apply leibniz_equiv, dom_alt.
    + destruct (foldl_store_item_dom app route (map_to_list rhm)
                  (guarded node)) as [_ ->].
      rewrite Hgp. f_equal. symmetry. apply leibniz_equiv, dom_alt.
    + by apply foldl_store_item_is_Some.
    + intros Hempty%dom_empty_inv_L. subst rhm.
      rewrite map_to_list_empty. simpl. unfold guarded.
      by destruct (path_parameters_falsy node).
    + eapply same_shape_trans; [exact Hgshape|].
      apply foldl_store_item_same_shape.
    + by destruct (foldl_store_item_same_shape app route (map_to_list rhm)
                     (guarded node)) as [_ ->].
  - split_and!.
    + intros key Hkey.
      destruct (store_handler_frame app route key "websocket" rh
                  (guarded node)) as [-> ->]; [set_solver|].
      by rewrite Hga, Hgp.
    + destruct (store_handler_dom app route "websocket" rh (guarded node))
        as [-> _]. by rewrite Hga.
    + destruct (store_handler_dom app route "websocket" rh (guarded node))
        as [_ ->]. by rewrite Hgp.
    + by eexists.
    + intros Habs. exfalso. set_solver.
    + eapply same_shape_trans; [exact Hgshape|]. done.
    + done.
  - split_and!.
    + intros key Hkey.
      destruct (store_handler_frame app route key "asgi" rh
                  (guarded node)) as [Ha Hp]; [set_solver|].
      rewrite <- Hga, <- Hgp. exact (conj Ha Hp).
    + destruct (store_handler_dom app route "asgi" rh (guarded node))
        as [Ha _]. rewrite <- Hga. exact Ha.
    + destruct (store_handler_dom app route "asgi" rh (guarded node))
        as [_ Hp]. rewrite <- Hgp. exact Hp.
    + by eexists.
    + intros Habs. exfalso. set_solver.
    + eapply same_shape_trans; [exact Hgshape|]. done.
    + done.
Qed.

Lemma configure_node_frame_witness :
  let node := configure_node Samples.full_app Samples.user_route create_node in
  let node' := configure_node Samples.full_app Samples.socket_route node in
  "GET"%string ∉ declared_keys Samples.socket_route
  ∧ asgi_handlers node' !! "GET"%string = asgi_handlers node !! "GET"%string
  ∧ path_parameters_of node' !! "GET"%string
    = path_parameters_of node !! "GET"%string.
Proof.
  intros node node'.
  assert (Hkey : "GET"%string ∉ declared_keys Samples.socket_route).
  { intros H. vm_compute in H. discriminate H. }
  split; [exact Hkey|].
  exact (proj1 (configure_node_frame
                  Samples.full_app Samples.socket_route node)
           "GET"%string Hkey).
Defined.

(** * The node store *)

Section store.
Implicit Types (h : list RouteTrieNode) (l c : nat) (n : RouteTrieNode).
Implicit Types (key : NodeKey).

Lemma upd_Some h l f h' :
  upd h l f = Some h' ↔ ∃ n, h !! l = Some n ∧ h' = <[l := f n]> h.
Proof.
  unfold upd. destruct (h !! l) as [n|]; simpl; split.
  - intros [= <-]. eauto.
  - intros (n' & [= <-] & ->). done.
  - done.
  - by intros (n' & ? & _).
Qed.

Lemma upd_eq h l f n : h !! l = Some n → upd h l f = Some (<[l := f n]> h).
Proof. intros Hn. apply upd_Some. eauto. Qed.

Lemma upd_length h l f h' : upd h l f = Some h' → length h' = length h.
Proof. intros (n & _ & ->)%upd_Some. apply length_insert. Qed.

Lemma upd_lookup h l f h' l' :
  upd h l f = Some h' →
  h' !! l' = if decide (l = l') then f <$> h !! l' else h !! l'.
Proof.
  intros (n & Hn & ->)%upd_Some. case_decide as Hl.
  - subst l'. rewrite Hn. simpl. apply list_lookup_insert_eq.
    by eapply lookup_lt_Some.
  - by apply list_lookup_insert_ne.
Qed.

Lemma upd_total h l f : l < length h → is_Some (upd h l f).
Proof.
  intros (n & Hn)%lookup_lt_is_Some. unfold upd. rewrite Hn. by eexists.
Qed.

(** An update that respects a property of single nodes keeps it on the
    whole store. *)
Lemma upd_Forall (P : RouteTrieNode → Prop) h l f h' :
  upd h l f = Some h' →
  Forall P h → (∀ n, h !! l = Some n → P n → P (f n)) → Forall P h'.
Proof.
  intros (n & Hn & ->)%upd_Some HP Hf.
  apply Forall_insert; [done|]. apply Hf; [done|].
  eapply Forall_lookup_1; eauto.
Qed.

Lemma ensure_child_Some h l key h' :
  ensure_child h l key = Some h' ↔
  ∃ n, h !! l = Some n
       ∧ ((is_Some (children n !! key) ∧ h' = h)
          ∨ (children n !! key = None
             ∧ h' = <[l := set_child key (length h) n]> h ++ [create_node])).
Proof.
  unfold ensure_child. destruct (h !! l) as [n|] eqn:Hn; simpl.
  - case_decide as Hk; simpl.
    + rewrite upd_Some. split.
      * intros (n' & Hn' & ->).
        rewrite lookup_app_l in Hn' by (by eapply lookup_lt_Some).
        simplify_eq. exists n. split; [done|]. right. split; [done|].
        apply insert_app_l. by eapply lookup_lt_Some.
      * intros (n' & [= <-] & [[[c Hc] _]| [_ ->]]); [congruence|].
        exists n. split.
        -- rewrite lookup_app_l by (by eapply lookup_lt_Some). done.
        -- symmetry. apply insert_app_l. by eapply lookup_lt_Some.
    + split.
      * intros [= <-]. exists n. split; [done|]. left.
        split; [|done]. by apply not_eq_None_Some.
      * intros (n' & [= <-] & [[_ ->]|[Hc _]]); done.
  - split; [done|]. by intros (n' & ? & _).
Qed.

(** After [ensure_child] the child is there; it is the old one if there
    was one and the newly made node otherwise. *)
Lemma ensure_child_child_of h l key h' :
  ensure_child h l key = Some h' →
  child_of h' l key = Some (default (length h) (child_of h l key)).
Proof.
  intros (n & Hn & [[[c Hc] ->]|[Hc ->]])%ensure_child_Some;
    unfold child_of; rewrite Hn; simpl.
  - by rewrite Hc.
  - rewrite Hc. simpl.
    rewrite lookup_app_l
      by (rewrite length_insert; by eapply lookup_lt_Some).
    rewrite list_lookup_insert_eq by (by eapply lookup_lt_Some).
    simpl. apply lookup_insert_eq.
Qed.

Lemma ensure_child_Forall (P : RouteTrieNode → Prop) h l key h' :
  ensure_child h l key = Some h' →
  Forall P h → P create_node →
  (∀ n c, children n !! key = None → P n → P (set_child key c n)) →
  Forall P h'.
Proof.
  intros (n & Hn & [[_ ->]|[Hc ->]])%ensure_child_Some HP Hcreate Hset;
    [done|].
  apply Forall_app. split; [|by apply Forall_singleton].
  apply Forall_insert; [done|]. apply Hset; [done|].
  eapply Forall_lookup_1; eauto.
Qed.

Lemma ensure_child_total h l key :
  l < length h → is_Some (ensure_child h l key).
Proof.
  intros (n & Hn)%lookup_lt_is_Some.
  destruct (children n !! key) as [c|] eqn:Hc.
  - exists h. apply ensure_child_Some. exists n. split; [done|]. left. eauto.
  - eexists. apply ensure_child_Some. exists n. split; [done|]. right. eauto.
Qed.

Lemma ensure_child_length h l key h' :
  ensure_child h l key = Some h' →
  length h' = if decide (child_of h l key = None)
              then S (length h) else length h.
Proof.
  intros (n & Hn & [[[c Hc] ->]|[Hc ->]])%ensure_child_Some;
    unfold child_of; rewrite Hn; simpl; rewrite Hc.
  - by rewrite decide_False.
  - rewrite decide_True by done.
    rewrite length_app, length_insert. simpl. lia.
Qed.

Lemma wf_lookup h l n key c :
  wf h → h !! l = Some n → children n !! key = Some c → c < length h.
Proof. intros Hwf. apply Hwf. Qed.

Lemma wf_child_of h l key c : wf h → child_of h l key = Some c → c < length h.
Proof.
  unfold child_of. intros Hwf Hc.
  destruct (h !! l) as [n|] eqn:Hn; simpl in Hc; [|done].
  by eapply Hwf.
Qed.

Lemma wf_insert h l n' :
  wf h →
  (∀ key c, children n' !! key = Some c → c < length h) →
  wf (<[l := n']> h).
Proof.
  intros Hwf Hn' l' n key c Hl Hc. rewrite length_insert.
  pose proof (lookup_lt_Some _ _ _ Hl) as Hlt.
  rewrite length_insert in Hlt.
  destruct (decide (l = l')) as [->|Hne].
  - rewrite list_lookup_insert_eq in Hl by done.
    simplify_eq. by eapply Hn'.
  - rewrite list_lookup_insert_ne in Hl by done. by eapply Hwf.
Qed.

Lemma wf_upd h l f h' :
  wf h → upd h l f = Some h' →
  (∀ n key c, h !! l = Some n → children (f n) !! key = Some c →
              c < length h) →
  wf h'.
Proof.
  intros Hwf (n & Hn & ->)%upd_Some Hf. apply wf_insert; [done|].
  intros key c. by apply Hf.
Qed.

Lemma wf_upd_same_children h l f h' :
  wf h → upd h l f = Some h' →
  (∀ n, children (f n) = children n) → wf h'.
Proof.
  intros Hwf Hupd Hf. eapply wf_upd; [done..|].
  intros n key c Hn. rewrite Hf. by eapply Hwf.
Qed.

Lemma wf_ensure_child h l key h' :
  wf h → ensure_child h l key = Some h' → wf h'.
Proof.
  intros Hwf (n & Hn & [[_ ->]|[Hc ->]])%ensure_child_Some; [done|].
  intros l' n' key' c Hl' Hc'. rewrite length_app, length_insert. simpl.
  apply lookup_app_Some in Hl' as [Hl'|[Hlen Hl']].
  - destruct (decide (l = l')) as [->|Hne].
    + rewrite list_lookup_insert_eq in Hl' by (by eapply lookup_lt_Some).
      simplify_eq. simpl in Hc'.
      apply lookup_insert_Some in Hc' as [[_ <-]|[_ Hc']]; [lia|].
      apply (Hwf _ _ _ _ Hn) in Hc'. lia.
    + rewrite list_lookup_insert_ne in Hl' by done.
      apply (Hwf _ _ _ _ Hl') in Hc'. lia.
  - apply list_lookup_singleton_Some in Hl' as [_ <-]. done.
Qed.

Lemma wf_fresh : wf [create_node].
Proof.
  intros l n key c Hl Hc.
  apply list_lookup_singleton_Some in Hl as [_ <-]. done.
Qed.
End store.

(** * Routes without path parameters *)

Section plain.
Variables (app : Starlite) (st : TrieState) (root : nat) (route : Route).
Variable (r : RouteTrieNode).
Hypothesis (Hwf : wf (nodes st)).
Hypothesis (Hroot : nodes st !! root = Some r).

(** The path is a child key of the root already: nothing is made. *)
Lemma add_plain_route_reuse c :
  children r !! KStr (path route) = Some c →
  add_plain_route st root route
  = Some ({| nodes := nodes st;
             mount_routes := mount_routes st;
             plain_routes := {[path route]} ∪ plain_routes st |}, c).
Proof.
  intros Hc. unfold add_plain_route, ensure_child, child_of.
  rewrite Hroot. simpl. rewrite decide_False by congruence.
  simpl. rewrite Hroot. simpl. by rewrite Hc.
Qed.

(** The path is no child key of the root: one node is made and linked. *)
Lemma add_plain_route_create :
  children r !! KStr (path route) = None →
  add_plain_route st root route
  = Some ({| nodes := <[root := set_child (KStr (path route)) (length (nodes st)) r]>
                        (nodes st) ++ [create_node];
             mount_routes := mount_routes st;
             plain_routes := {[path route]} ∪ plain_routes st |},
          length (nodes st)).
Proof.
  intros Hc.
  assert (Hlt : root < length (nodes st)) by (by eapply lookup_lt_Some).
  assert (Hens : ensure_child (nodes st) root (KStr (path route))
                 = Some (<[root := set_child (KStr (path route)) (length (nodes st)) r]>
                           (nodes st) ++ [create_node])).
  { apply ensure_child_Some. exists r. split; [done|]. by right. }
  unfold add_plain_route. rewrite Hens. simpl.
  rewrite (ensure_child_child_of _ _ _ _ Hens).
  unfold child_of. rewrite Hroot. simpl. by rewrite Hc.
Qed.
End plain.

(** C3: a route that is no mount and has no path parameter.  Its path joins
    [plain_routes]; the root gets a child keyed by the whole path, which is
    the child it had under that key if there was one and a newly made node
    otherwise; no other node is made; the returned node is that child, and
    it has been configured for the route.  Other nodes are left alone. *)
Theorem add_route_to_trie_plain
    (app : Starlite) (st : TrieState) (root : nat) (route : Route)
    (r : RouteTrieNode) :
  wf (nodes st) →
  nodes st !! root = Some r →
  is_mount_route route = false →
  has_path_parameters route = false →
  let existing := children r !! KStr (path route) in
  ∃ st' l,
    add_route_to_trie app st root route = Some (st', l)
    ∧ plain_routes st' = {[path route]} ∪ plain_routes st
    ∧ mount_routes st' = mount_routes st
    ∧ child_of (nodes st') root (KStr (path route)) = Some l
    ∧ l = default (length (nodes st)) existing
    ∧ length (nodes st')
      = (if existing then length (nodes st) else S (length (nodes st)))
    ∧ nodes st' !! l
      = Some (configure_node app route (default create_node (nodes st !! l)))
    ∧ (root ≠ l →
       nodes st' !! root
       = Some (if existing then r else set_child (KStr (path route)) l r))
    ∧ (∀ l', l' ≠ l → l' ≠ root → nodes st' !! l' = nodes st !! l').
Proof.
  intros Hwf Hroot Hmount Hparams existing.
  assert (Hlt : root < length (nodes st)) by (by eapply lookup_lt_Some).
  unfold add_route_to_trie. rewrite Hmount, Hparams. simpl.
  subst existing. destruct (children r !! KStr (path route)) as [c|] eqn:Hc.
  - rewrite (add_plain_route_reuse st root route r Hroot c Hc). simpl.
    assert (Hclt : c < length (nodes st)) by (by eapply Hwf).
    destruct (lookup_lt_is_Some_2 _ _ Hclt) as [n Hn].
    unfold upd. rewrite Hn. simpl. eexists _, _. split; [reflexivity|].
    simpl. split; [done|]. split; [done|]. split_and!.
    + unfold child_of.
      destruct (decide (root = c)) as [->|Hne].
      * rewrite list_lookup_insert_eq by done. simpl.
        rewrite configure_node_children. by simplify_eq.
      * rewrite list_lookup_insert_ne by done. rewrite Hroot. done.
    + done.
    + apply length_insert.
    + rewrite list_lookup_insert_eq by done. by rewrite Hn.
    + intros Hne. by rewrite list_lookup_insert_ne.
    + intros l' Hl' _. by rewrite list_lookup_insert_ne.
  - rewrite (add_plain_route_create st root route r Hroot Hc). simpl.
    unfold upd.
    rewrite lookup_app_r by (by rewrite length_insert).
    rewrite length_insert, Nat.sub_diag. simpl.
    eexists _, _. split; [reflexivity|]. simpl.
    assert (Hlen : length (<[root:=set_child (KStr (path route))
                                     (length (nodes st)) r]> (nodes st)
                           ++ [create_node]) = S (length (nodes st))).
    { rewrite length_app, length_insert. simpl. lia. }
    split; [done|]. split; [done|]. split_and!.
    + unfold child_of. rewrite list_lookup_insert_ne by lia.
      rewrite lookup_app_l by (by rewrite length_insert).
      rewrite list_lookup_insert_eq by done. simpl. apply lookup_insert_eq.
    + done.
    + by rewrite length_insert.
    + rewrite list_lookup_insert_eq by lia.
      by rewrite (lookup_ge_None_2 (nodes st)) by lia.
    + intros _. rewrite list_lookup_insert_ne by lia.
      rewrite lookup_app_l by (by rewrite length_insert).
      by rewrite list_lookup_insert_eq.
    + intros l' Hl' Hl'r. rewrite list_lookup_insert_ne by done.
      destruct (decide (l' < length (nodes st))) as [Hlt'|Hge].
      * rewrite lookup_app_l by (by rewrite length_insert).
        by rewrite list_lookup_insert_ne.
      * rewrite !lookup_ge_None_2; [done|lia|]. rewrite Hlen. lia.
Qed.

Lemma add_route_to_trie_plain_witness :
  wf (nodes fresh_trie)
  ∧ ∃ st' l,
      add_route_to_trie Samples.csrf_app fresh_trie 0 Samples.health_route
      = Some (st', l)
      ∧ plain_routes st' = {["/health"%string]} ∪ ∅
      ∧ child_of (nodes st') 0 (KStr "/health") = Some l
      ∧ l = 1
      ∧ length (nodes st') = 2
      ∧ nodes st' !! l
        = Some (configure_node Samples.csrf_app Samples.health_route
                  create_node).
Proof.
  split; [exact wf_fresh|].
  destruct (add_route_to_trie_plain
              Samples.csrf_app fresh_trie 0 Samples.health_route create_node
              wf_fresh eq_refl eq_refl eq_refl)
    as (st' & l & Hrun & Hplain & _ & Hchild & Hl & Hlen & Hnode & _).
  exists st', l. split_and!; try assumption.
  rewrite Hnode. rewrite Hl. reflexivity.
Defined.

(** * Mount routes *)

(** C9: the path of the mount is a child key of the root already.  No
    component is walked and no node is made.  The root itself is marked as
    the mount, with the handler's [is_static]; for a path other than ["/"]
    the root becomes its own child under the path, replacing the child
    registered there, and in either case [mount_routes] maps the path to the
    root, which is the node returned. *)
Theorem add_mount_route_path_present
    (st : TrieState) (root : nat) (route : Route)
    (r : RouteTrieNode) (rh : RouteHandler) (c : nat) :
  nodes st !! root = Some r →
  route_handler_of route = Some rh →
  children r !! KStr (path route) = Some c →
  let marked := set_is_static (rh_is_static rh) (set_is_mount true r) in
  let r' := if decide (path route ≠ "/"%string)
            then set_child (KStr (path route)) root marked
            else marked in
  add_mount_route root st root route
  = Some ({| nodes := <[root := r']> (nodes st);
             mount_routes := <[path route := root]> (mount_routes st);
             plain_routes := plain_routes st |}, root)
  ∧ is_mount r' = true
  ∧ is_static r' = rh_is_static rh
  ∧ (path route ≠ "/"%string → children r' !! KStr (path route) = Some root)
  ∧ (path route = "/"%string → children r' = children r).
Proof.
  intros Hroot Hrh Hc marked r'.
  pose proof (lookup_lt_Some _ _ _ Hroot) as Hlt.
  split.
  - unfold add_mount_route, mark_mount. rewrite Hroot. simpl.
    rewrite decide_False by congruence. simpl.
    rewrite (upd_eq _ _ _ _ Hroot). simpl. rewrite Hrh. simpl.
    erewrite upd_eq by (by apply list_lookup_insert_eq). simpl.
    rewrite list_insert_insert_eq. fold marked. subst r'.
    case_decide as Hp; [|done].
    erewrite upd_eq by (by apply list_lookup_insert_eq). simpl.
    by rewrite list_insert_insert_eq.
  - subst r'. case_decide as Hp; simpl; split_and!; try done.
    intros _. apply lookup_insert_eq.
Qed.

Lemma add_mount_route_path_present_witness :
  let r := set_child (KStr "/health") 1 create_node in
  nodes Samples.health_trie !! 0 = Some r
  ∧ children r !! KStr "/health" = Some 1
  ∧ ∃ st',
      add_mount_route 0 Samples.health_trie 0 Samples.clash_route
      = Some (st', 0)
      ∧ child_of (nodes st') 0 (KStr "/health") = Some 0
      ∧ mount_routes st' !! "/health"%string = Some 0
      ∧ length (nodes st') = 2.
Proof.
  intros r.
  assert (Hroot : nodes Samples.health_trie !! 0 = Some r)
    by (vm_compute; reflexivity).
  assert (Hchild : children r !! KStr (path Samples.clash_route) = Some 1)
    by (vm_compute; reflexivity).
  split; [exact Hroot|]. split; [exact Hchild|].
  destruct (add_mount_route_path_present
              Samples.health_trie 0 Samples.clash_route r
              Samples.static_handler 1 Hroot eq_refl Hchild)
    as (Hrun & _).
  eexists. split; [exact Hrun|].
  split_and!; vm_compute; reflexivity.
Defined.

Section mount_walk.
Implicit Types (h : list RouteTrieNode) (l c : nat) (n : RouteTrieNode).

Lemma set_children_set_children v v' n :
  set_children v (set_children v' n) = set_children v n.
Proof. by destruct n. Qed.

Lemma set_children_id n : set_children (children n) n = n.
Proof. by destruct n. Qed.

Lemma links_added_refl h : links_added h h.
Proof.
  split_and!; [done|..].
  - intros l n Hn. exists n. by rewrite set_children_id.
  - intros l n' Hl Hn'. apply lookup_lt_Some in Hn'. lia.
Qed.

Lemma links_added_trans h1 h2 h3 :
  links_added h1 h2 → links_added h2 h3 → links_added h1 h3.
Proof.
  intros (Hlen12 & Hold12 & Hnew12) (Hlen23 & Hold23 & Hnew23).
  split_and!; [lia|..].
  - intros l n Hn.
    destruct (Hold12 l n Hn) as (n' & Hn' & Hsub & Heq).
    destruct (Hold23 l n' Hn') as (n'' & Hn'' & Hsub' & Heq').
    exists n''. split; [done|]. split; [by etrans|].
    rewrite Heq', Heq. by rewrite !set_children_set_children.
  - intros l n'' Hl Hn''.
    destruct (decide (l < length h2)) as [Hlt|Hge].
    + destruct (lookup_lt_is_Some_2 _ _ Hlt) as [n' Hn'].
      destruct (Hold23 l n' Hn') as (n3 & Hn3 & _ & Heq). simplify_eq.
      rewrite Heq at 1. rewrite (Hnew12 l n' Hl Hn').
      by rewrite !set_children_set_children.
    + apply (Hnew23 l); [lia|done].
Qed.

Lemma links_added_ensure_child h l key h' :
  ensure_child h l key = Some h' → links_added h h'.
Proof.
  intros (n & Hn & [[_ ->]|[Hc ->]])%ensure_child_Some;
    [apply links_added_refl|].
  pose proof (lookup_lt_Some _ _ _ Hn) as Hlt.
  split_and!.
  - rewrite length_app, length_insert. lia.
  - intros l' n' Hn'. pose proof (lookup_lt_Some _ _ _ Hn') as Hlt'.
    rewrite lookup_app_l by (by rewrite length_insert).
    destruct (decide (l = l')) as [->|Hne].
    + rewrite list_lookup_insert_eq by done. simplify_eq.
      eexists. split; [done|]. simpl. split; [|done].
      by apply insert_subseteq.
    + rewrite list_lookup_insert_ne by done. exists n'.
      by rewrite set_children_id.
  - intros l' n' Hl' Hn'.
    rewrite lookup_app_r in Hn' by (by rewrite length_insert).
    apply list_lookup_singleton_Some in Hn' as [_ <-]. done.
Qed.

Lemma links_added_child_of h h' l key c :
  links_added h h' → child_of h l key = Some c → child_of h' l key = Some c.
Proof.
  intros (_ & Hold & _). unfold child_of.
  destruct (h !! l) as [n|] eqn:Hn; simpl; [|done]. intros Hc.
  destruct (Hold l n Hn) as (n' & -> & Hsub & _). simpl.
  by eapply lookup_weaken.
Qed.

(** One round of the loop of [add_mount_route]. *)
Lemma mount_step_spec h l component :
  wf h → l < length h →
  ∃ h' next,
    mount_step h l component = Some (h', next)
    ∧ wf h' ∧ next < length h'
    ∧ links_added h h'
    ∧ child_of h' l (component_key component) = Some next
    ∧ next = default (length h) (child_of h l (component_key component))
    ∧ (is_Some (child_of h l (component_key component)) → h' = h)
    ∧ (∀ P : RouteTrieNode → Prop,
          P create_node →
          (∀ n key c, key ≠ PathParameterSentinel →
                      P n → P (set_child key c n)) →
          Forall P h → Forall P h').
Proof.
  intros Hwf Hl.
  destruct (ensure_child_total h l (component_key component) Hl)
    as [h' Hens].
  pose proof (ensure_child_child_of _ _ _ _ Hens) as Hchild.
  pose proof (wf_ensure_child _ _ _ _ Hwf Hens) as Hwf'.
  exists h', (default (length h) (child_of h l (component_key component))).
  unfold mount_step. rewrite Hens. simpl. rewrite Hchild. simpl.
  split_and!; try done.
  - by eapply wf_child_of.
  - by eapply links_added_ensure_child.
  - intros [c Hc]. apply ensure_child_Some in Hens
      as (n & Hn & [[_ ->]|[Hnone _]]); [done|].
    unfold child_of in Hc. rewrite Hn in Hc. simpl in Hc. congruence.
  - intros P Hcreate Hset HP.
    eapply ensure_child_Forall; [exact Hens|done|done|].
    intros n c _. apply Hset. by destruct component.
Qed.

(** The whole loop: it ends, at a node that the components lead to from
    the start node; the store has only gained links and new nodes; when
    the components led somewhere already, nothing is made. *)
Lemma mount_walk_spec components h l :
  wf h → l < length h →
  ∃ h' last,
    mount_walk h l components = Some (h', last)
    ∧ wf h' ∧ last < length h'
    ∧ links_added h h'
    ∧ descend h' l (component_key <$> components) = Some last
    ∧ (∀ l0, descend h l (component_key <$> components) = Some l0 →
             h' = h ∧ last = l0)
    ∧ (∀ P : RouteTrieNode → Prop,
          P create_node →
          (∀ n key c, key ≠ PathParameterSentinel →
                      P n → P (set_child key c n)) →
          Forall P h → Forall P h').
Proof.
  revert h l. induction components as [|c cs IH]; intros h l Hwf Hl.
  - exists h, l. simpl. split_and!; try done.
    + apply links_added_refl.
    + by intros l0 [= <-].
  - destruct (mount_step_spec h l c Hwf Hl)
      as (h1 & next & Hstep & Hwf1 & Hnext & Hadd1 & Hchild & Hdef & Hsame
          & HP1).
    destruct (IH h1 next Hwf1 Hnext)
      as (h' & last & Hwalk & Hwf' & Hlast & Hadd & Hdesc & Hnone & HP).
    exists h', last. simpl. rewrite Hstep. simpl.
    split_and!; try done.
    + by eapply links_added_trans.
    + rewrite (links_added_child_of _ _ _ _ _ Hadd Hchild). simpl. done.
    + intros l0 Hl0.
      destruct (child_of h l (component_key c)) as [c0|] eqn:Hc0;
        simpl in Hl0; [|done].
      rewrite (Hsame (mk_is_Some _ _ eq_refl)) in *.
      simpl in Hdef. subst next. by apply Hnone.
    + intros P Hcreate Hset HPh. apply HP; try done. by apply HP1.
Qed.
End mount_walk.

(** C4: the path of the mount is no child key of the root.  The components
    are walked from the root, a child being made for each component that is
    not there (the store only gains links and new nodes, the components lead
    from the root to the final node, and nothing is made when they led
    somewhere already).  The final node is marked [is_mount], with the
    handler's [is_static], and [mount_routes] maps the path to it.  For a
    path other than ["/"] the root gets the final node as its child under
    the whole path; for ["/"] no link is written. *)
Theorem add_mount_route_path_absent
    (st : TrieState) (root : nat) (route : Route)
    (r : RouteTrieNode) (rh : RouteHandler) :
  wf (nodes st) →
  nodes st !! root = Some r →
  route_handler_of route = Some rh →
  children r !! KStr (path route) = None →
  let keys := component_key <$> path_components route in
  ∃ h1 last n1 st',
    mount_walk (nodes st) root (path_components route) = Some (h1, last)
    ∧ links_added (nodes st) h1
    ∧ descend h1 root keys = Some last
    ∧ (∀ l0, descend (nodes st) root keys = Some l0 →
             h1 = nodes st ∧ last = l0)
    ∧ h1 !! last = Some n1
    ∧ add_mount_route root st root route = Some (st', last)
    ∧ mount_routes st' = <[path route := last]> (mount_routes st)
    ∧ plain_routes st' = plain_routes st
    ∧ (∃ n', nodes st' !! last = Some n'
             ∧ is_mount n' = true ∧ is_static n' = rh_is_static rh)
    ∧ (let h2 := <[last := set_is_static (rh_is_static rh)
                             (set_is_mount true n1)]> h1 in
       (path route = "/"%string → nodes st' = h2)
       ∧ (path route ≠ "/"%string →
          upd h2 root (set_child (KStr (path route)) last) = Some (nodes st')
          ∧ child_of (nodes st') root (KStr (path route)) = Some last)).
Proof.
  intros Hwf Hroot Hrh Habsent keys.
  pose proof (lookup_lt_Some _ _ _ Hroot) as Hlt.
  destruct (mount_walk_spec (path_components route) (nodes st) root Hwf Hlt)
    as (h1 & last & Hwalk & Hwf1 & Hlast & Hadd & Hdesc & Hnone & _).
  destruct (lookup_lt_is_Some_2 _ _ Hlast) as [n1 Hn1].
  set (marked := set_is_static (rh_is_static rh) (set_is_mount true n1)).
  set (h2 := <[last := marked]> h1).
  assert (Hlen2 : length h2 = length h1) by apply length_insert.
  assert (Hroot2 : root < length h2).
  { destruct Hadd as (Hlen & _). lia. }
  destruct (lookup_lt_is_Some_2 _ _ Hroot2) as [r2 Hr2].
  assert (Hrun :
    add_mount_route root st root route
    = if decide (path route ≠ "/"%string)
      then Some ({| nodes := <[root := set_child (KStr (path route)) last r2]>
                               h2;
                    mount_routes := <[path route := last]> (mount_routes st);
                    plain_routes := plain_routes st |}, last)
      else Some ({| nodes := h2;
                    mount_routes := <[path route := last]> (mount_routes st);
                    plain_routes := plain_routes st |}, last)).
  { unfold add_mount_route, mark_mount. rewrite Hroot. simpl.
    rewrite decide_True by done. rewrite Hwalk. simpl.
    rewrite (upd_eq _ _ _ _ Hn1). simpl. rewrite Hrh. simpl.
    erewrite upd_eq by (by apply list_lookup_insert_eq). simpl.
    rewrite list_insert_insert_eq. fold marked. fold h2.
    case_decide; [|done]. by rewrite (upd_eq _ _ _ _ Hr2). }
  exists h1, last, n1.
  destruct (decide (path route ≠ "/"%string)) as [Hp|Hp].
  - eexists. split_and!; try done.
    + simpl. destruct (decide (root = last)) as [->|Hne].
      * rewrite list_lookup_insert_eq by done. eexists. split; [done|].
        subst h2. rewrite list_lookup_insert_eq in Hr2 by done.
        by simplify_eq.
      * rewrite list_lookup_insert_ne by done. subst h2.
        rewrite list_lookup_insert_eq by done. by eexists.
    + fold marked. fold h2. split; [done|]. intros _. simpl.
      split; [by apply upd_eq|].
      unfold child_of. rewrite list_lookup_insert_eq by done. simpl.
      apply lookup_insert_eq.
  - eexists. split_and!; try done.
    simpl. subst h2. rewrite list_lookup_insert_eq by done. by eexists.
Qed.

Lemma add_mount_route_path_absent_witness :
  wf (nodes fresh_trie)
  ∧ children create_node !! KStr (path Samples.static_route) = None
  ∧ ∃ h1 st',
      mount_walk (nodes fresh_trie) 0 (path_components Samples.static_route)
      = Some (h1, 2)
      ∧ links_added (nodes fresh_trie) h1
      ∧ add_mount_route 0 fresh_trie 0 Samples.static_route = Some (st', 2)
      ∧ descend (nodes st') 0 [KStr "static"; KStr "assets"] = Some 2
      ∧ child_of (nodes st') 0 (KStr "/static/assets") = Some 2
      ∧ mount_routes st' !! "/static/assets"%string = Some 2
      ∧ is_mount <$> nodes st' !! 2 = Some true
      ∧ length (nodes st') = 3.
Proof.
  split; [exact wf_fresh|]. split; [reflexivity|].
  destruct (add_mount_route_path_absent
              fresh_trie 0 Samples.static_route create_node
              Samples.static_handler wf_fresh eq_refl eq_refl eq_refl)
    as (h1 & last & n1 & st' & Hwalk & Hadd & _ & _ & _ & Hrun & _).
  exists h1, st'.
  assert (Hlast : last = 2).
  { vm_compute in Hwalk. by injection Hwalk as _ <-. }
  subst last. split; [exact Hwalk|]. split; [exact Hadd|].
  split; [exact Hrun|].
  vm_compute in Hrun. injection Hrun as <-.
  split_and!; vm_compute; reflexivity.
Defined.

(** * Routes with path parameters *)

Section param_walk.
Implicit Types (h : list RouteTrieNode) (l c : nat) (n : RouteTrieNode).

(** One round of the loop, in closed form: the start node becomes
    [visited], a new node is appended if the key was missing, and the
    node reached is flagged if the component is a path-typed parameter. *)
Lemma param_step_unfold h l component :
  param_step h l component
  = n ← h !! l;
    let h3 := <[l := visited component (length h) n]>
                (if decide (children n !! next_node_key component = None)
                 then h ++ [create_node] else h) in
    next ← child_of h3 l (next_node_key component);
    h4 ← (if is_path_component component
          then upd h3 next (set_is_path_type true)
          else Some h3);
    Some (h4, next).
Proof.
  unfold param_step.
  destruct (h !! l) as [n|] eqn:Hn; simpl.
  2:{ destruct component; simpl; unfold ensure_child, upd; by rewrite Hn. }
  pose proof (lookup_lt_Some _ _ _ Hn) as Hlt.
  set (key := next_node_key component).
  set (n1 := match component with
             | Param _ => set_is_path_param_node true n
             | Lit _ => n
             end).
  set (h1 := <[l := n1]> h).
  assert (Hh1 : match component with
                | Param _ => upd h l (set_is_path_param_node true)
                | Lit _ => Some h
                end = Some h1).
  { subst h1 n1. destruct component; [|by apply upd_eq].
    by rewrite list_insert_id. }
  rewrite Hh1. simpl.
  assert (Hn1 : h1 !! l = Some n1) by (by apply list_lookup_insert_eq).
  assert (Hc1 : children n1 = children n) by (by destruct component).
  assert (Hlen1 : length h1 = length h) by apply length_insert.
  unfold visited. fold key. fold n1. rewrite Hc1.
  unfold ensure_child. rewrite Hn1. simpl. rewrite Hc1.
  case_decide as Hkey; simpl.
  - erewrite upd_eq; last first.
    { rewrite lookup_app_l by lia. exact Hn1. }
    simpl. erewrite upd_eq; last first.
    { apply list_lookup_insert_eq. rewrite length_app. lia. }
    simpl. rewrite list_insert_insert_eq.
    subst h1. rewrite Hlen1.
    rewrite <- (insert_app_l h) by lia.
    by rewrite list_insert_insert_eq.
  - erewrite upd_eq by exact Hn1. simpl.
    subst h1. by rewrite list_insert_insert_eq.
Qed.

Lemma visited_children component fresh n :
  children (visited component fresh n)
  = if decide (children n !! next_node_key component = None)
    then <[next_node_key component := fresh]> (children n)
    else children n.
Proof.
  unfold visited. destruct component; simpl; by case_decide.
Qed.

Lemma visited_is_path_type component fresh n :
  is_path_type (visited component fresh n) = is_path_type n.
Proof.
  unfold visited. destruct component; simpl; by case_decide.
Qed.

Lemma visited_is_path_param_node component fresh n :
  is_path_param_node (visited component fresh n)
  = match component with
    | Param _ => true
    | Lit _ => is_path_param_node n
    end.
Proof.
  unfold visited. destruct component; simpl; by case_decide.
Qed.

Lemma visited_child_of component fresh n :
  children (visited component fresh n) !! next_node_key component
  = Some (default fresh (children n !! next_node_key component)).
Proof.
  rewrite visited_children. case_decide as Hk.
  - rewrite Hk. simpl. apply lookup_insert_eq.
  - by destruct (children n !! next_node_key component).
Qed.

Lemma visited_children_subseteq component fresh n :
  children n ⊆ children (visited component fresh n).
Proof.
  rewrite visited_children. case_decide; [|done]. by apply insert_subseteq.
Qed.

Lemma visited_child_keys_ok component fresh n :
  child_keys_ok (visited component fresh n).
Proof. unfold child_keys_ok, visited. by destruct component. Qed.

Lemma visited_sentinel_ok component fresh n :
  sentinel_ok n → sentinel_ok (visited component fresh n).
Proof.
  unfold sentinel_ok. intros Hn.
  rewrite visited_children, visited_is_path_param_node.
  destruct component as [s|p]; simpl.
  - case_decide; [|done]. rewrite dom_insert_L. rewrite Hn. set_solver.
  - split; [intros _|done]. case_decide as Hk.
    + rewrite dom_insert_L. set_solver.
    + apply elem_of_dom. by apply not_eq_None_Some.
Qed.

Lemma wf_app_create h : wf h → wf (h ++ [create_node]).
Proof.
  intros Hwf l n key c Hl Hc. rewrite length_app. simpl.
  apply lookup_app_Some in Hl as [Hl|[_ Hl]].
  - apply (Hwf _ _ _ _ Hl) in Hc. lia.
  - apply list_lookup_singleton_Some in Hl as [_ <-]. done.
Qed.

Lemma grows_refl h : grows h h.
Proof. intros l n Hn. exists n. done. Qed.

Lemma grows_trans h1 h2 h3 : grows h1 h2 → grows h2 h3 → grows h1 h3.
Proof.
  intros H12 H23 l n Hn.
  destruct (H12 l n Hn) as (n' & Hn' & Hsub & Hpt & Hck).
  destruct (H23 l n' Hn') as (n'' & Hn'' & Hsub' & Hpt' & Hck').
  exists n''. split; [done|]. split; [by etrans|]. auto.
Qed.

Lemma grows_length h h' : grows h h' → length h ≤ length h'.
Proof.
  intros Hg. destruct (decide (length h ≤ length h')) as [|Hgt]; [done|].
  assert (Hlt : length h' < length h) by lia.
  destruct (lookup_lt_is_Some_2 _ _ Hlt) as [n Hn].
  destruct (Hg _ _ Hn) as (n' & Hn' & _).
  apply lookup_lt_Some in Hn'. lia.
Qed.

Lemma grows_child_of h h' l key c :
  grows h h' → child_of h l key = Some c → child_of h' l key = Some c.
Proof.
  intros Hg. unfold child_of.
  destruct (h !! l) as [n|] eqn:Hn; simpl; [|done]. intros Hc.
  destruct (Hg l n Hn) as (n' & -> & Hsub & _). simpl.
  by eapply lookup_weaken.
Qed.

Lemma grows_insert h l n n' :
  h !! l = Some n →
  children n ⊆ children n' →
  (is_path_type n = true → is_path_type n' = true) →
  (child_keys_ok n → child_keys_ok n') →
  grows h (<[l := n']> h).
Proof.
  intros Hn Hsub Hpt Hck l' m Hm.
  pose proof (lookup_lt_Some _ _ _ Hn) as Hlt.
  destruct (decide (l = l')) as [<-|Hne].
  - rewrite list_lookup_insert_eq by done. simplify_eq. eauto.
  - rewrite list_lookup_insert_ne by done. exists m. done.
Qed.

Lemma grows_app h tl : grows h (h ++ tl).
Proof.
  intros l n Hn. exists n. split; [|done].
  by apply lookup_app_l_Some.
Qed.

(** One round of the loop on a well-formed store: it succeeds, and what
    it does to the store. *)
Lemma param_step_spec h l component :
  wf h → l < length h →
  ∃ h' next,
    param_step h l component = Some (h', next)
    ∧ wf h' ∧ next < length h'
    ∧ grows h h'
    ∧ child_of h' l (next_node_key component) = Some next
    ∧ next = default (length h) (child_of h l (next_node_key component))
    ∧ (is_Some (child_of h l (next_node_key component)) →
       length h' = length h)
    ∧ (∃ n', h' !! l = Some n' ∧ child_keys_ok n')
    ∧ (is_path_component component = true →
       ∃ n', h' !! next = Some n' ∧ is_path_type n' = true)
    ∧ (is_path_component component = false →
       ∀ l' n', h' !! l' = Some n' →
                is_path_type n' = from_option is_path_type false (h !! l'))
    ∧ (∀ P : RouteTrieNode → Prop,
          P create_node →
          (∀ n, P n → P (visited component (length h) n)) →
          (∀ n, P n → P (set_is_path_type true n)) →
          Forall P h → Forall P h').
Proof.
  intros Hwf Hl. destruct (lookup_lt_is_Some_2 _ _ Hl) as [n Hn].
  rewrite param_step_unfold. rewrite Hn. simpl.
  set (key := next_node_key component).
  set (v := visited component (length h) n).
  set (h0 := if decide (children n !! key = None)
             then h ++ [create_node] else h).
  set (h3 := <[l := v]> h0).
  set (next := default (length h) (children n !! key)).
  assert (Hlen0 : length h ≤ length h0 ∧ length h0 ≤ S (length h)).
  { subst h0. case_decide; [|lia]. rewrite length_app. simpl. lia. }
  assert (Hl0 : l < length h0) by lia.
  assert (Hn0 : h0 !! l = Some n).
  { subst h0. case_decide; [|done]. by apply lookup_app_l_Some. }
  assert (Hwf0 : wf h0).
  { subst h0. case_decide; [|done]. by apply wf_app_create. }
  assert (Hlen3 : length h3 = length h0) by apply length_insert.
  assert (Hv3 : h3 !! l = Some v) by (by apply list_lookup_insert_eq).
  assert (Hchild : child_of h3 l key = Some next).
  { unfold child_of. rewrite Hv3. simpl. apply visited_child_of. }
  assert (Hchild0 : child_of h l key = children n !! key).
  { unfold child_of. by rewrite Hn. }
  assert (Hnext : next < length h3).
  { rewrite Hlen3. subst next h0. case_decide as Hk.
    - rewrite Hk. simpl. rewrite length_app. simpl. lia.
    - destruct (children n !! key) as [c|] eqn:Hc; [|done]. simpl.
      by eapply Hwf. }
  assert (Hwf3 : wf h3).
  { apply wf_insert; [done|]. intros k c. subst v.
    rewrite visited_children. fold key. subst h0.
    case_decide as Hk.
    - rewrite length_app. simpl.
      intros [[_ <-]|[_ Hc]]%lookup_insert_Some; [lia|].
      apply (Hwf _ _ _ _ Hn) in Hc. lia.
    - intros Hc. by eapply wf_lookup. }
  assert (Hg0 : grows h h0).
  { subst h0. case_decide; [apply grows_app|apply grows_refl]. }
  assert (Hg3 : grows h h3).
  { eapply grows_trans; [exact Hg0|].
    eapply grows_insert; [exact Hn0|..].
    - apply visited_children_subseteq.
    - subst v. by rewrite visited_is_path_type.
    - intros _. apply visited_child_keys_ok. }
  assert (HP3 : ∀ P : RouteTrieNode → Prop,
             P create_node →
             (∀ n, P n → P (visited component (length h) n)) →
             Forall P h → Forall P h3).
  { intros P Hcreate Hvis HP.
    assert (HP0 : Forall P h0).
    { subst h0. case_decide; [|done]. apply Forall_app. split; [done|].
      by apply Forall_singleton. }
    apply Forall_insert; [done|]. apply Hvis.
    eapply Forall_lookup_1; eauto. }
  assert (Hpt3 : ∀ l' n', h3 !! l' = Some n' →
             is_path_type n' = from_option is_path_type false (h !! l')).
  { intros l' n' Hn'. destruct (decide (l = l')) as [<-|Hne].
    - rewrite Hv3 in Hn'. simplify_eq. rewrite Hn. simpl.
      apply visited_is_path_type.
    - subst h3. rewrite list_lookup_insert_ne in Hn' by done.
      subst h0. case_decide; [|by rewrite Hn'].
      apply lookup_app_Some in Hn' as [->|[Hge Hn']]; [done|].
      apply list_lookup_singleton_Some in Hn' as [_ <-].
      by rewrite lookup_ge_None_2. }
  assert (Hsame : is_Some (child_of h l key) → length h3 = length h).
  { rewrite Hchild0, Hlen3. intros [c Hc]. subst h0.
    by rewrite decide_False by congruence. }
  rewrite Hchild. simpl. fold key.
  destruct (is_path_component component) eqn:Hpath.
  - destruct (lookup_lt_is_Some_2 _ _ Hnext) as [n3 Hn3].
    rewrite (upd_eq _ _ _ _ Hn3). simpl.
    eexists _, _. split; [reflexivity|].
    split_and!.
    + apply wf_insert; [done|]. intros k c Hc. by eapply Hwf3.
    + by rewrite length_insert.
    + eapply grows_trans; [exact Hg3|].
      by eapply grows_insert.
    + unfold child_of. destruct (decide (next = l)) as [->|Hne].
      * rewrite list_lookup_insert_eq by done. simpl.
        rewrite Hv3 in Hn3. simplify_eq.
        unfold child_of in Hchild. rewrite Hv3 in Hchild. exact Hchild.
      * rewrite list_lookup_insert_ne by done. exact Hchild.
    + by rewrite Hchild0.
    + rewrite length_insert. exact Hsame.
    + destruct (decide (next = l)) as [->|Hne].
      * rewrite list_lookup_insert_eq by done. eexists. split; [done|].
        rewrite Hv3 in Hn3. simplify_eq. apply visited_child_keys_ok.
      * rewrite list_lookup_insert_ne by done. eexists. split; [done|].
        apply visited_child_keys_ok.
    + intros _. rewrite list_lookup_insert_eq by done. by eexists.
    + done.
    + intros P Hcreate Hvis Hset HP. apply Forall_insert.
      * by apply HP3.
      * apply Hset. eapply Forall_lookup_1; [by apply HP3|done].
  - eexists _, _. split; [reflexivity|].
    split_and!; try done.
    + by rewrite Hchild0.
    + eexists. split; [done|]. apply visited_child_keys_ok.
    + intros P Hcreate Hvis _ HP. by apply HP3.
Qed.

(** The whole loop on a well-formed store. *)
Lemma param_walk_spec components h l :
  wf h → l < length h →
  ∃ h' last,
    param_walk h l components = Some (h', last)
    ∧ wf h' ∧ last < length h'
    ∧ grows h h'
    ∧ descend h' l (next_node_key <$> components) = Some last
    ∧ (∀ i comp, components !! i = Some comp →
              is_path_component comp = true →
              ∃ reached n',
                descend h' l (next_node_key <$> take (S i) components)
                = Some reached
                ∧ h' !! reached = Some n'
                ∧ is_path_type n' = true)
    ∧ (∀ i, i < length components →
            ∃ left n',
              descend h' l (next_node_key <$> take i components)
              = Some left
              ∧ h' !! left = Some n'
              ∧ child_keys_ok n')
    ∧ (∀ P : RouteTrieNode → Prop,
          P create_node →
          (∀ comp fresh n, P n → P (visited comp fresh n)) →
          (∀ n, P n → P (set_is_path_type true n)) →
          Forall P h → Forall P h').
Proof.
  revert h l. induction components as [|c cs IH]; intros h l Hwf Hl.
  - exists h, l. simpl. split_and!; try done.
    + apply grows_refl.
    + intros i Hi. lia.
  - destruct (param_step_spec h l c Hwf Hl)
      as (h1 & next & Hstep & Hwf1 & Hnext & Hg1 & Hchild & _ & _
          & Hleft & Hflag & _ & HP1).
    destruct (IH h1 next Hwf1 Hnext)
      as (h' & last & Hwalk & Hwf' & Hlast & Hg & Hdesc & Hflags
          & Hlefts & HP).
    exists h', last. simpl. rewrite Hstep. simpl.
    pose proof (grows_child_of _ _ _ _ _ Hg Hchild) as Hchild'.
    split_and!; try done.
    + by eapply grows_trans.
    + by rewrite Hchild'.
    + intros [|i] c' Hc' Hpath; simpl in Hc'.
      * simplify_eq. destruct (Hflag Hpath) as (n1 & Hn1 & Hpt).
        destruct (Hg _ _ Hn1) as (n' & Hn' & _ & Hpt' & _).
        exists next, n'. simpl. rewrite Hchild'. simpl. by auto.
      * destruct (Hflags i c' Hc' Hpath) as (reached & n' & Hd & Hn' & Hpt).
        exists reached, n'. split; [|done].
        change (take (S (S i)) (c :: cs)) with (c :: take (S i) cs).
        simpl. rewrite Hchild'. simpl. exact Hd.
    + intros [|i] Hi.
      * destruct Hleft as (n1 & Hn1 & Hok).
        destruct (Hg _ _ Hn1) as (n' & Hn' & _ & _ & Hok').
        exists l, n'. simpl. by auto.
      * destruct (Hlefts i) as (left & n' & Hd & Hn' & Hok);
          [simpl in Hi; lia|].
        exists left, n'. split; [|done].
        change (take (S i) (c :: cs)) with (c :: take i cs).
        simpl. rewrite Hchild'. simpl. exact Hd.
    + intros P Hcreate Hvis Hset HPh. apply HP; try done.
      apply HP1; try done. intros n. apply Hvis.
Qed.

(** Assigning to attributes other than [children] changes no path. *)
Lemma descend_insert_same_children h l n n' l0 keys :
  h !! l = Some n → children n' = children n →
  descend (<[l := n']> h) l0 keys = descend h l0 keys.
Proof.
  intros Hn Hc. pose proof (lookup_lt_Some _ _ _ Hn) as Hlt.
  revert l0. induction keys as [|key keys IH]; intros l0; simpl; [done|].
  assert (Hco : child_of (<[l := n']> h) l0 key = child_of h l0 key).
  { unfold child_of. destruct (decide (l = l0)) as [<-|Hne].
    - rewrite list_lookup_insert_eq by done. rewrite Hn. simpl.
      by rewrite Hc.
    - by rewrite list_lookup_insert_ne. }
  rewrite Hco. destruct (child_of h l0 key); simpl; [apply IH|done].
Qed.
End param_walk.

(** * Invariants of the builder *)

Section invariants.
Implicit Types (h : list RouteTrieNode) (l : nat) (n : RouteTrieNode).

Lemma sentinel_ok_create_node : sentinel_ok create_node.
Proof. unfold sentinel_ok. simpl. rewrite dom_empty_L. set_solver. Qed.

Lemma child_keys_ok_create_node : child_keys_ok create_node.
Proof. unfold child_keys_ok. simpl. by rewrite dom_empty_L. Qed.

Lemma sentinel_ok_set_child key c n :
  key ≠ PathParameterSentinel →
  sentinel_ok n → sentinel_ok (set_child key c n).
Proof.
  unfold sentinel_ok. simpl. intros Hkey ->.
  rewrite dom_insert_L. set_solver.
Qed.

Lemma sentinel_ok_same_shape n n' :
  same_shape n n' → sentinel_ok n → sentinel_ok n'.
Proof.
  unfold sentinel_ok. intros (-> & _ & _ & _ & -> & _). done.
Qed.

Lemma child_keys_ok_same_shape n n' :
  same_shape n n' → child_keys_ok n → child_keys_ok n'.
Proof.
  unfold child_keys_ok. intros (-> & -> & _). done.
Qed.

(** The statements after the loop of [add_mount_route]. *)
Lemma mark_mount_inv h1 st root cur route rh :
  wf h1 → cur < length h1 → root < length h1 →
  route_handler_of route = Some rh →
  ∃ st',
    mark_mount h1 st root cur route = Some (st', cur)
    ∧ wf (nodes st')
    ∧ length (nodes st') = length h1
    ∧ (Forall sentinel_ok h1 → Forall sentinel_ok (nodes st')).
Proof.
  intros Hwf Hcur Hroot Hrh. unfold mark_mount.
  destruct (upd_total h1 cur (set_is_mount true) Hcur) as [h2 Hh2].
  pose proof (upd_length _ _ _ _ Hh2) as Hlen2.
  destruct (upd_total h2 cur (set_is_static (rh_is_static rh)))
    as [h3 Hh3]; [lia|].
  pose proof (upd_length _ _ _ _ Hh3) as Hlen3.
  assert (Hwf3 : wf h3).
  { eapply wf_upd_same_children; [|exact Hh3|done].
    by eapply wf_upd_same_children. }
  assert (HP3 : Forall sentinel_ok h1 → Forall sentinel_ok h3).
  { intros HP. eapply upd_Forall; [exact Hh3| |done].
    by eapply upd_Forall. }
  rewrite Hh2. simpl. rewrite Hrh. simpl. rewrite Hh3. simpl.
  case_decide as Hp.
  - destruct (upd_total h3 root (set_child (KStr (path route)) cur))
      as [h4 Hh4]; [lia|].
    rewrite Hh4. simpl. eexists. split; [done|]. simpl. split_and!.
    + eapply wf_upd; [exact Hwf3|exact Hh4|].
      intros n key c Hn. simpl.
      intros [[_ <-]|[_ Hc]]%lookup_insert_Some; [lia|].
      by eapply Hwf3.
    + rewrite (upd_length _ _ _ _ Hh4). lia.
    + intros HP. eapply upd_Forall; [exact Hh4|by apply HP3|].
      intros n _. by apply sentinel_ok_set_child.
  - eexists. split; [done|]. simpl. split_and!; [done|lia|done].
Qed.

Lemma route_handler_of_mount route :
  is_mount_route route = true → is_Some (route_handler_of route).
Proof.
  unfold is_mount_route, route_handler_of.
  destruct (kind route); [done|by eexists..].
Qed.

Lemma add_mount_route_inv st root route :
  wf (nodes st) → root < length (nodes st) →
  is_mount_route route = true →
  ∃ st' l,
    add_mount_route root st root route = Some (st', l)
    ∧ wf (nodes st') ∧ l < length (nodes st')
    ∧ length (nodes st) ≤ length (nodes st')
    ∧ (Forall sentinel_ok (nodes st) → Forall sentinel_ok (nodes st')).
Proof.
  intros Hwf Hroot [rh Hrh]%route_handler_of_mount.
  destruct (lookup_lt_is_Some_2 _ _ Hroot) as [r Hr].
  unfold add_mount_route. rewrite Hr. simpl. case_decide as Hp; simpl.
  - destruct (mount_walk_spec (path_components route) (nodes st) root
                Hwf Hroot)
      as (h1 & last & Hwalk & Hwf1 & Hlast & (Hlen & _) & _ & _ & HP).
    rewrite Hwalk. simpl.
    destruct (mark_mount_inv h1 st root last route rh Hwf1 Hlast)
      as (st' & Hrun & Hwf' & Hlen' & HP'); [lia|done|].
    exists st', last. split; [done|]. split_and!; [done|lia|lia|].
    intros HPh. apply HP'. apply HP; [| |done].
    + apply sentinel_ok_create_node.
    + intros n key c. apply sentinel_ok_set_child.
  - destruct (mark_mount_inv (nodes st) st root root route rh Hwf Hroot)
      as (st' & Hrun & Hwf' & Hlen' & HP'); [done..|].
    exists st', root. split; [done|]. split_and!; [done|lia|lia|done].
Qed.

Lemma add_plain_route_inv st root route :
  wf (nodes st) → root < length (nodes st) →
  ∃ st' l,
    add_plain_route st root route = Some (st', l)
    ∧ wf (nodes st') ∧ l < length (nodes st')
    ∧ length (nodes st) ≤ length (nodes st')
    ∧ (Forall sentinel_ok (nodes st) → Forall sentinel_ok (nodes st')).
Proof.
  intros Hwf Hroot. unfold add_plain_route.
  destruct (ensure_child_total (nodes st) root (KStr (path route)) Hroot)
    as [h1 Hens].
  rewrite Hens. simpl. rewrite (ensure_child_child_of _ _ _ _ Hens). simpl.
  pose proof (wf_ensure_child _ _ _ _ Hwf Hens) as Hwf1.
  eexists _, _. split; [done|]. simpl. split_and!.
  - done.
  - eapply wf_child_of; [exact Hwf1|].
    by apply ensure_child_child_of.
  - rewrite (ensure_child_length _ _ _ _ Hens). case_decide; lia.
  - intros HP. eapply ensure_child_Forall; [exact Hens|done|..].
    + apply sentinel_ok_create_node.
    + intros n c _. by apply sentinel_ok_set_child.
Qed.

Lemma add_param_route_inv st root route :
  wf (nodes st) → root < length (nodes st) →
  ∃ st' l,
    add_param_route st root route = Some (st', l)
    ∧ wf (nodes st') ∧ l < length (nodes st')
    ∧ length (nodes st) ≤ length (nodes st')
    ∧ (Forall sentinel_ok (nodes st) → Forall sentinel_ok (nodes st'))
    ∧ (Forall child_keys_ok (nodes st) → Forall child_keys_ok (nodes st')).
Proof.
  intros Hwf Hroot. unfold add_param_route.
  destruct (param_walk_spec (path_components route) (nodes st) root
              Hwf Hroot)
    as (h1 & last & Hwalk & Hwf1 & Hlast & Hg & _ & _ & _ & HP).
  rewrite Hwalk. simpl. eexists _, _. split; [done|]. simpl.
  split_and!; [done|done|by apply grows_length|..].
  - intros HPh. apply HP; [|intros; by apply visited_sentinel_ok|done|done].
    apply sentinel_ok_create_node.
  - intros HPh. apply HP;
      [|intros; by apply visited_child_keys_ok|done|done].
    apply child_keys_ok_create_node.
Qed.

(** [add_route_to_trie] returns on every well-formed store, leaves it
    well-formed and keeps the sentinel invariant. *)
Lemma add_route_to_trie_inv app st root route :
  wf (nodes st) → root < length (nodes st) →
  ∃ st' l,
    add_route_to_trie app st root route = Some (st', l)
    ∧ wf (nodes st') ∧ l < length (nodes st')
    ∧ length (nodes st) ≤ length (nodes st')
    ∧ (Forall sentinel_ok (nodes st) → Forall sentinel_ok (nodes st')).
Proof.
  intros Hwf Hroot.
  assert (Hbranch : ∃ st1 l,
    (if is_mount_route route
     then add_mount_route root st root route
     else if negb (has_path_parameters route)
     then add_plain_route st root route
     else add_param_route st root route) = Some (st1, l)
    ∧ wf (nodes st1) ∧ l < length (nodes st1)
    ∧ length (nodes st) ≤ length (nodes st1)
    ∧ (Forall sentinel_ok (nodes st) → Forall sentinel_ok (nodes st1))).
  { destruct (is_mount_route route) eqn:Hm;
      [by apply add_mount_route_inv|].
    destruct (has_path_parameters route); simpl.
    - destruct (add_param_route_inv st root route Hwf Hroot)
        as (st1 & l & ? & ? & ? & ? & ? & _). by exists st1, l.
    - by apply add_plain_route_inv. }
  destruct Hbranch as (st1 & l & Hrun & Hwf1 & Hl & Hlen & HP).
  unfold add_route_to_trie. rewrite Hrun. simpl.
  destruct (upd_total (nodes st1) l (configure_node app route) Hl)
    as [h' Hh'].
  rewrite Hh'. simpl. eexists _, _. split; [done|]. simpl.
  split_and!.
  - eapply wf_upd_same_children; [done..|].
    intros n. apply configure_node_children.
  - by rewrite (upd_length _ _ _ _ Hh').
  - by rewrite (upd_length _ _ _ _ Hh').
  - intros HPh. eapply upd_Forall; [exact Hh'|by apply HP|].
    intros n _. apply sentinel_ok_same_shape.
    apply configure_node_same_shape.
Qed.

Lemma add_routes_inv app routes st root :
  wf (nodes st) → root < length (nodes st) →
  Forall sentinel_ok (nodes st) →
  ∃ st',
    add_routes app st root routes = Some st'
    ∧ wf (nodes st') ∧ root < length (nodes st')
    ∧ Forall sentinel_ok (nodes st').
Proof.
  revert st. induction routes as [|route routes IH]; intros st Hwf Hroot HP.
  - by exists st.
  - destruct (add_route_to_trie_inv app st root route Hwf Hroot)
      as (st1 & l & Hrun & Hwf1 & _ & Hlen & HP1).
    destruct (IH st1 Hwf1) as (st' & Hrest & ?); [lia|by apply HP1|].
    exists st'. simpl. rewrite Hrun. simpl. done.
Qed.

Lemma same_shape_refl n : same_shape n n.
Proof. done. Qed.

Lemma insert_same_shape_lookup h l n n' l0 m :
  h !! l = Some n → same_shape n n' → h !! l0 = Some m →
  ∃ m', <[l := n']> h !! l0 = Some m' ∧ same_shape m m'.
Proof.
  intros Hn Hs Hm. pose proof (lookup_lt_Some _ _ _ Hn) as Hlt.
  destruct (decide (l = l0)) as [<-|Hne].
  - rewrite list_lookup_insert_eq by done. simplify_eq. eauto.
  - rewrite list_lookup_insert_ne by done. exists m. done.
Qed.

(** A route with path parameters: the loop, then [configure_node] on the
    node it ends at. *)
Lemma add_route_to_trie_param app st root route :
  wf (nodes st) → root < length (nodes st) →
  is_mount_route route = false →
  has_path_parameters route = true →
  ∃ h1 last n1,
    param_walk (nodes st) root (path_components route) = Some (h1, last)
    ∧ h1 !! last = Some n1
    ∧ add_route_to_trie app st root route
      = Some ({| nodes := <[last := configure_node app route n1]> h1;
                 mount_routes := mount_routes st;
                 plain_routes := plain_routes st |}, last).
Proof.
  intros Hwf Hroot Hm Hp.
  destruct (param_walk_spec (path_components route) (nodes st) root
              Hwf Hroot) as (h1 & last & Hwalk & _ & Hlast & _).
  destruct (lookup_lt_is_Some_2 _ _ Hlast) as [n1 Hn1].
  exists h1, last, n1. split; [done|]. split; [done|].
  unfold add_route_to_trie, add_param_route. rewrite Hm, Hp. simpl.
  rewrite Hwalk. simpl. by rewrite (upd_eq _ _ _ _ Hn1).
Qed.

Lemma keeps_child_keys_refl h : keeps_child_keys h h.
Proof. split; [done|]. intros l n' ->. done. Qed.

Lemma keeps_child_keys_trans h1 h2 h3 :
  keeps_child_keys h1 h2 → keeps_child_keys h2 h3 → keeps_child_keys h1 h3.
Proof.
  intros [Hlen12 H12] [Hlen23 H23]. split; [lia|].
  intros l n3 Hn3. rewrite (H23 l n3 Hn3).
  destruct (h2 !! l) as [n2|] eqn:Hn2; simpl; [by apply H12|].
  apply lookup_ge_None in Hn2. by rewrite lookup_ge_None_2 by lia.
Qed.

Lemma keeps_child_keys_links_added h h' :
  links_added h h' → keeps_child_keys h h'.
Proof.
  intros (Hlen & Hold & Hnew). split; [done|]. intros l n' Hn'.
  destruct (h !! l) as [n|] eqn:Hn; simpl.
  - destruct (Hold l n Hn) as (m & Hm & _ & Heq). simplify_eq.
    by rewrite Heq.
  - apply lookup_ge_None in Hn. by rewrite (Hnew l n' Hn Hn').
Qed.

Lemma keeps_child_keys_upd h l f h' :
  upd h l f = Some h' →
  (∀ n, child_keys (f n) = child_keys n) →
  keeps_child_keys h h'.
Proof.
  intros Hupd Hf. split; [by rewrite (upd_length _ _ _ _ Hupd)|].
  intros l' n' Hn'. rewrite (upd_lookup _ _ _ _ l' Hupd) in Hn'.
  case_decide; [|by rewrite Hn'].
  destruct (h !! l') as [n|]; simpl in *; [|done]. simplify_eq. apply Hf.
Qed.

(** The statements after the loop of [add_mount_route] assign no
    [child_keys]. *)
Lemma mark_mount_keeps_child_keys h1 st root cur route st' l :
  mark_mount h1 st root cur route = Some (st', l) →
  keeps_child_keys h1 (nodes st').
Proof.
  unfold mark_mount. intros Hrun.
  destruct (upd h1 cur (set_is_mount true)) as [h2|] eqn:Hh2;
    simpl in Hrun; [|done].
  destruct (route_handler_of route) as [rh|]; simpl in Hrun; [|done].
  destruct (upd h2 cur (set_is_static (rh_is_static rh))) as [h3|] eqn:Hh3;
    simpl in Hrun; [|done].
  assert (H13 : keeps_child_keys h1 h3).
  { eapply keeps_child_keys_trans; by eapply keeps_child_keys_upd. }
  case_decide.
  - destruct (upd h3 root (set_child (KStr (path route)) cur)) as [h4|] eqn:Hh4;
      simpl in Hrun; [|done].
    simplify_eq. simpl. eapply keeps_child_keys_trans; [exact H13|].
    by eapply keeps_child_keys_upd.
  - by simplify_eq.
Qed.

Lemma add_mount_route_keeps_child_keys st root route st' l :
  wf (nodes st) → root < length (nodes st) →
  add_mount_route root st root route = Some (st', l) →
  keeps_child_keys (nodes st) (nodes st').
Proof.
  intros Hwf Hroot. unfold add_mount_route.
  destruct (lookup_lt_is_Some_2 _ _ Hroot) as [r ->]. simpl.
  case_decide; simpl.
  - destruct (mount_walk_spec (path_components route) (nodes st) root
                Hwf Hroot) as (h1 & last & -> & _ & _ & Hadd & _).
    simpl. intros Hrun. eapply keeps_child_keys_trans.
    + by apply keeps_child_keys_links_added.
    + by eapply mark_mount_keeps_child_keys.
  - apply mark_mount_keeps_child_keys.
Qed.

Lemma add_plain_route_keeps_child_keys st root route st' l :
  add_plain_route st root route = Some (st', l) →
  keeps_child_keys (nodes st) (nodes st').
Proof.
  unfold add_plain_route. intros Hrun.
  destruct (ensure_child (nodes st) root (KStr (path route))) as [h1|] eqn:Hens;
    simpl in Hrun; [|done].
  destruct (child_of h1 root (KStr (path route))); simpl in Hrun; [|done].
  simplify_eq. simpl. apply keeps_child_keys_links_added.
  by eapply links_added_ensure_child.
Qed.

(** [add_route_to_trie] is one of the three branches, then
    [configure_node] on the node the branch ends at. *)
Lemma add_route_to_trie_Some app st root route st' l :
  add_route_to_trie app st root route = Some (st', l) →
  ∃ st1 n1,
    (if is_mount_route route
     then add_mount_route root st root route
     else if negb (has_path_parameters route)
     then add_plain_route st root route
     else add_param_route st root route) = Some (st1, l)
    ∧ nodes st1 !! l = Some n1
    ∧ nodes st' = <[l := configure_node app route n1]> (nodes st1).
Proof.
  unfold add_route_to_trie. intros Hrun.
  destruct (if is_mount_route route then _ else _) as [[st1 l1]|];
    simpl in Hrun; [|done].
  destruct (upd (nodes st1) l1 (configure_node app route)) as [h'|] eqn:Hupd;
    simpl in Hrun; [|done].
  simplify_eq. apply upd_Some in Hupd as (n1 & Hn1 & ->).
  by exists st1, n1.
Qed.
End invariants.

(** C5: in a trie built from a new root by any sequence of
    [add_route_to_trie] calls (which all return), every node has
    [is_path_param_node] set exactly when the sentinel is one of its child
    keys; and at any node of it, a parameter component of whatever name and
    type is led to the child under the sentinel, so that a second parameter
    component at the same node reaches the same child and makes no node. *)
Theorem sentinel_invariant (app : Starlite) (routes : list Route) :
  ∃ st,
    add_routes app fresh_trie 0 routes = Some st
    ∧ Forall sentinel_ok (nodes st)
    ∧ (∀ l p, l < length (nodes st) →
         ∃ h' next,
           param_step (nodes st) l (Param p) = Some (h', next)
           ∧ child_of h' l PathParameterSentinel = Some next
           ∧ ∀ q, ∃ h'',
               param_step h' l (Param q) = Some (h'', next)
               ∧ child_of h'' l PathParameterSentinel = Some next
               ∧ length h'' = length h').
Proof.
  destruct (add_routes_inv app routes fresh_trie 0 wf_fresh)
    as (st & Hrun & Hwf & Hroot & HP).
  { simpl. lia. }
  { apply Forall_singleton. apply sentinel_ok_create_node. }
  exists st. split; [done|]. split; [done|].
  intros l p Hl.
  destruct (param_step_spec (nodes st) l (Param p) Hwf Hl)
    as (h' & next & Hstep & Hwf' & _ & Hg & Hchild & _).
  exists h', next. split; [done|]. split; [done|].
  intros q.
  assert (Hl' : l < length h').
  { apply grows_length in Hg. lia. }
  destruct (param_step_spec h' l (Param q) Hwf' Hl')
    as (h'' & next' & Hstep' & _ & _ & _ & Hchild' & Hnext' & Hlen & _).
  simpl in Hchild, Hchild', Hnext', Hlen.
  rewrite Hchild in Hnext', Hlen. simpl in Hnext'. subst next'.
  exists h''. split; [done|]. split; [done|]. apply Hlen. by eexists.
Qed.

Lemma sentinel_invariant_witness :
  ∃ st,
    add_routes Samples.full_app fresh_trie 0 [Samples.user_route] = Some st
    ∧ Forall sentinel_ok (nodes st)
    ∧ 1 < length (nodes st)
    ∧ ∃ h' h'',
        param_step (nodes st) 1 (Param Samples.p_name) = Some (h', 2)
        ∧ param_step h' 1 (Param Samples.p_rest) = Some (h'', 2)
        ∧ length h'' = length h'.
Proof.
  destruct (sentinel_invariant Samples.full_app [Samples.user_route])
    as (st & Hrun & HP & Hsame).
  exists st. split; [exact Hrun|]. split; [exact HP|].
  assert (Hlen : 1 < length (nodes st)).
  { vm_compute in Hrun. injection Hrun as <-. vm_compute. lia. }
  split; [exact Hlen|].
  destruct (Hsame 1 Samples.p_name Hlen) as (h' & next & Hstep & _ & Hq).
  destruct (Hq Samples.p_rest) as (h'' & Hstep' & _ & Hlen').
  assert (Hnext : next = 2).
  { vm_compute in Hrun. injection Hrun as <-.
    vm_compute in Hstep. by injection Hstep as _ <-. }
  subst next. by exists h', h''.
Defined.

(** C6, as stated, fails: adding the parameter-free route [/health] to a
    new trie gives the root the child ["/health"] and leaves its
    [child_keys] empty. *)
Lemma child_keys_stale_after_plain_route :
  ¬ (∀ (app : Starlite) (st : TrieState) (root : nat) (route : Route)
       (st' : TrieState) (l : nat),
        Forall child_keys_ok (nodes st) →
        add_route_to_trie app st root route = Some (st', l) →
        Forall child_keys_ok (nodes st')).
Proof.
  intros H.
  specialize (H Samples.csrf_app fresh_trie 0 Samples.health_route
                Samples.health_trie 1).
  assert (Hfresh : Forall child_keys_ok (nodes fresh_trie)).
  { apply Forall_singleton. apply child_keys_ok_create_node. }
  specialize (H Hfresh eq_refl).
  apply (Forall_lookup_1 _ _ 0 (set_child (KStr "/health") 1 create_node))
    in H; [|by vm_compute].
  vm_compute in H. discriminate H.
Qed.

(** C6, amended: [child_keys] is refreshed by the branch for routes with
    path parameters only.  After such a route has been added, every node
    the loop went on from (the node reached by each proper prefix of the
    components) has [child_keys] equal to the key set of its [children];
    a node that had this property keeps it; hence if all nodes had it, all
    have it.  Adding a mount or a route without path parameters assigns
    [child_keys] on no node: every node has the set it had, a newly made
    one has the empty set. *)
Theorem add_route_to_trie_param_child_keys
    (app : Starlite) (st : TrieState) (root : nat) (route : Route) :
  wf (nodes st) →
  root < length (nodes st) →
  ∃ st' last,
    add_route_to_trie app st root route = Some (st', last)
    ∧ (is_mount_route route = false →
       has_path_parameters route = true →
       (∀ i, i < length (path_components route) →
             ∃ left n',
               descend (nodes st') root
                 (next_node_key <$> take i (path_components route))
               = Some left
               ∧ nodes st' !! left = Some n'
               ∧ child_keys_ok n')
       ∧ (∀ l n, nodes st !! l = Some n → child_keys_ok n →
                 ∃ n', nodes st' !! l = Some n' ∧ child_keys_ok n')
       ∧ (Forall child_keys_ok (nodes st) →
          Forall child_keys_ok (nodes st')))
    ∧ (is_mount_route route = true ∨ has_path_parameters route = false →
       keeps_child_keys (nodes st) (nodes st')).
Proof.
  intros Hwf Hroot.
  destruct (add_route_to_trie_inv app st root route Hwf Hroot)
    as (st' & last & Hrun & _).
  exists st', last. split; [exact Hrun|]. split.
  - intros Hm Hp.
    destruct (add_route_to_trie_param app st root route Hwf Hroot Hm Hp)
      as (h1 & last1 & n1 & Hwalk & Hn1 & Hrun1).
    rewrite Hrun in Hrun1. injection Hrun1 as -> ->.
    destruct (param_walk_spec (path_components route) (nodes st) root
                Hwf Hroot)
      as (h1' & last' & Hwalk' & _ & _ & Hg & _ & _ & Hlefts & HP).
    rewrite Hwalk in Hwalk'. symmetry in Hwalk'. simplify_eq.
    pose proof (configure_node_same_shape app route n1) as Hshape.
    simpl. split_and!.
    + intros i Hi. destruct (Hlefts i Hi) as (left & n' & Hd & Hn' & Hok).
      destruct (insert_same_shape_lookup _ _ _ _ _ _ Hn1 Hshape Hn')
        as (m' & Hm' & Hs).
      exists left, m'.
      split_and!; [|done|by eapply child_keys_ok_same_shape].
      rewrite (descend_insert_same_children _ _ _ _ _ _ Hn1); [done|].
      apply configure_node_children.
    + intros l n Hn Hok. destruct (Hg l n Hn) as (n' & Hn' & _ & _ & Hok').
      destruct (insert_same_shape_lookup _ _ _ _ _ _ Hn1 Hshape Hn')
        as (m' & Hm' & Hs).
      exists m'. split; [done|]. eapply child_keys_ok_same_shape; eauto.
    + intros HPh. apply Forall_insert.
      * apply HP; [|intros; by apply visited_child_keys_ok|done|done].
        apply child_keys_ok_create_node.
      * eapply child_keys_ok_same_shape; [exact Hshape|].
        eapply Forall_lookup_1; [|exact Hn1].
        apply HP; [|intros; by apply visited_child_keys_ok|done|done].
        apply child_keys_ok_create_node.
  - intros Hkind.
    destruct (add_route_to_trie_Some _ _ _ _ _ _ Hrun)
      as (st1 & n1 & Hbranch & Hn1 & ->).
    eapply keeps_child_keys_trans; last first.
    { eapply keeps_child_keys_upd; [by apply upd_eq|].
      intros n. by destruct (configure_node_same_shape app route n)
        as (_ & -> & _). }
    destruct (is_mount_route route) eqn:Hm.
    + by eapply add_mount_route_keeps_child_keys.
    + destruct Hkind as [|Hp]; [done|]. rewrite Hp in Hbranch.
      simpl in Hbranch. by eapply add_plain_route_keeps_child_keys.
Qed.

Lemma add_route_to_trie_param_child_keys_witness :
  wf (nodes Samples.health_trie)
  ∧ 0 < length (nodes Samples.health_trie)
  ∧ ∃ st' root_node users_node,
      add_route_to_trie Samples.full_app Samples.health_trie 0
        Samples.user_route = Some (st', 3)
      ∧ nodes st' !! 0 = Some root_node
      ∧ child_keys_ok root_node
      ∧ nodes st' !! 2 = Some users_node
      ∧ child_keys_ok users_node.
Proof.
  assert (Hwf : wf (nodes Samples.health_trie)).
  { destruct (add_route_to_trie_inv Samples.csrf_app fresh_trie 0
                Samples.health_route wf_fresh)
      as (st1 & l & Hrun & Hwf1 & _); [simpl; lia|].
    unfold Samples.health_trie. rewrite Hrun. exact Hwf1. }
  assert (Hroot : 0 < length (nodes Samples.health_trie))
    by (vm_compute; lia).
  split; [exact Hwf|]. split; [exact Hroot|].
  destruct (add_route_to_trie_param_child_keys
              Samples.full_app Samples.health_trie 0 Samples.user_route
              Hwf Hroot)
    as (st' & last & Hrun & Hparam & _).
  destruct (Hparam eq_refl eq_refl) as (Hlefts & _).
  destruct (Hlefts 0) as (l0 & n0 & Hd0 & Hn0 & Hok0); [simpl; lia|].
  destruct (Hlefts 1) as (l1 & n1 & Hd1 & Hn1 & Hok1); [simpl; lia|].
  assert (Hlast : last = 3).
  { vm_compute in Hrun. by injection Hrun as _ <-. }
  subst last.
  assert (Hl1 : l1 = 2).
  { vm_compute in Hrun. injection Hrun as <-.
    vm_compute in Hd1. by injection Hd1 as <-. }
  simpl in Hd0. injection Hd0 as <-. subst l1.
  by exists st', n0, n1.
Defined.

(** C7: adding a route with path parameters.  The call returns the node
    the components lead to; for every component that is a parameter of type
    [Path], the node reached through the sentinel key for it (the node the
    components up to and including it lead to) has [is_path_type] set.  A
    round of the loop for any other component changes [is_path_type] on no
    node: every node has the value it had, a newly made one has it
    cleared. *)
Theorem add_route_to_trie_path_type
    (app : Starlite) (st : TrieState) (root : nat) (route : Route) :
  wf (nodes st) →
  root < length (nodes st) →
  is_mount_route route = false →
  has_path_parameters route = true →
  (∃ st' last,
      add_route_to_trie app st root route = Some (st', last)
      ∧ descend (nodes st') root (next_node_key <$> path_components route)
        = Some last
      ∧ ∀ i p, path_components route !! i = Some (Param p) →
               pp_type p = TPath →
               ∃ reached n',
                 descend (nodes st') root
                   ((next_node_key <$> take i (path_components route))
                    ++ [PathParameterSentinel])
                 = Some reached
                 ∧ nodes st' !! reached = Some n'
                 ∧ is_path_type n' = true)
  ∧ (∀ h l component,
        wf h → l < length h →
        is_path_component component = false →
        ∃ h' next,
          param_step h l component = Some (h', next)
          ∧ ∀ l' n', h' !! l' = Some n' →
                     is_path_type n'
                     = from_option is_path_type false (h !! l')).
Proof.
  intros Hwf Hroot Hm Hp. split.
  - destruct (add_route_to_trie_param app st root route Hwf Hroot Hm Hp)
      as (h1 & last & n1 & Hwalk & Hn1 & Hrun).
    destruct (param_walk_spec (path_components route) (nodes st) root
                Hwf Hroot)
      as (h1' & last' & Hwalk' & _ & _ & _ & Hdesc & Hflags & _).
    rewrite Hwalk in Hwalk'. symmetry in Hwalk'. simplify_eq.
    pose proof (configure_node_same_shape app route n1) as Hshape.
    pose proof (configure_node_children app route n1) as Hchildren.
    eexists _, _. split; [exact Hrun|]. simpl. split.
    + by rewrite (descend_insert_same_children _ _ _ _ _ _ Hn1).
    + intros i p Hi Hpath.
      destruct (Hflags i (Param p) Hi) as (reached & n' & Hd & Hn' & Hpt).
      { simpl. by apply bool_decide_eq_true. }
      destruct (insert_same_shape_lookup _ _ _ _ _ _ Hn1 Hshape Hn')
        as (m' & Hm' & Hs).
      exists reached, m'. split_and!.
      * rewrite (descend_insert_same_children _ _ _ _ _ _ Hn1) by done.
        rewrite <- Hd. f_equal.
        rewrite (take_S_r _ _ _ Hi). by rewrite fmap_app.
      * done.
      * destruct Hs as (_ & _ & _ & _ & _ & ->). done.
  - intros h l component Hwfh Hl Hnot.
    destruct (param_step_spec h l component Hwfh Hl)
      as (h' & next & Hstep & _ & _ & _ & _ & _ & _ & _ & _ & Hsame & _).
    exists h', next. split; [done|]. by apply Hsame.
Qed.

Lemma add_route_to_trie_path_type_witness :
  wf (nodes fresh_trie)
  ∧ 0 < length (nodes fresh_trie)
  ∧ (∃ st' n',
       add_route_to_trie Samples.csrf_app fresh_trie 0 Samples.files_route
       = Some (st', 2)
       ∧ descend (nodes st') 0 [KStr "files"; PathParameterSentinel] = Some 2
       ∧ nodes st' !! 2 = Some n'
       ∧ is_path_type n' = true)
  ∧ (∃ h' next,
       param_step (nodes fresh_trie) 0 (Param Samples.p_id) = Some (h', next)
       ∧ is_path_type <$> h' !! next = Some false).
Proof.
  assert (Hroot : 0 < length (nodes fresh_trie)) by (simpl; lia).
  split; [exact wf_fresh|]. split; [exact Hroot|].
  destruct (add_route_to_trie_path_type
              Samples.csrf_app fresh_trie 0 Samples.files_route
              wf_fresh Hroot eq_refl eq_refl)
    as [(st' & last & Hrun & Hdesc & Hflags) Hother].
  split.
  - destruct (Hflags 1 Samples.p_rest eq_refl eq_refl)
      as (reached & n' & Hd & Hn' & Hpt).
    assert (Hlast : last = 2).
    { vm_compute in Hrun. by injection Hrun as _ <-. }
    subst last. simpl in Hdesc, Hd. rewrite Hdesc in Hd.
    injection Hd as <-. by exists st', n'.
  - destruct (Hother (nodes fresh_trie) 0 (Param Samples.p_id)
                wf_fresh Hroot eq_refl)
      as (h' & next & Hstep & Hsame).
    exists h', next. split; [exact Hstep|].
    vm_compute in Hstep. injection Hstep as <- <-. reflexivity.
Defined.

(** * Further properties of the middleware stack *)

Lemma rev_lookup {A} (xs : list A) (i : nat) (x : A) :
  xs !! i = Some x → rev xs !! (length xs - S i) = Some x.
Proof.
  intros Hx. pose proof (lookup_lt_Some _ _ _ Hx) as Hlt.
  rewrite rev_alt. change (rev_append xs []) with (reverse xs).
  apply reverse_lookup_Some. split; [|lia].
  replace (length xs - S (length xs - S i)) with i by lia. done.
Qed.

(** Two layers of one segment of a stack keep their order in the stack. *)
Lemma outside_segment (x y : Layer) (pre seg post : list Layer) (i j : nat) :
  seg !! i = Some x → seg !! j = Some y → i < j →
  outside x y (pre ++ seg ++ post).
Proof.
  intros Hi Hj Hlt. exists (length pre + i), (length pre + j).
  split_and!; [| |lia].
  - rewrite lookup_app_r by lia.
    replace (length pre + i - length pre) with i by lia.
    by apply lookup_app_l_Some.
  - rewrite lookup_app_r by lia.
    replace (length pre + j - length pre) with j by lia.
    by apply lookup_app_l_Some.
Qed.

(** X1: the loop over [resolve_middleware()] wraps as it goes, so a
    middleware resolved later is outside every middleware resolved before
    it: the last one resolved is the first to see a request. *)
Theorem later_middleware_wraps_earlier
    (app : Starlite) (route : Route) (route_handler : RouteHandler)
    (i j : nat) (mi mj : Middleware) :
  resolve_middleware route_handler !! i = Some mi →
  resolve_middleware route_handler !! j = Some mj →
  i < j →
  outside (middleware_layer mj) (middleware_layer mi)
    (layers (build_route_middleware_stack app route route_handler)).
Proof.
  intros Hi Hj Hlt. rewrite layers_build_route_middleware_stack.
  set (ms := middleware_layer <$> resolve_middleware route_handler).
  assert (Hi' : ms !! i = Some (middleware_layer mi))
    by (subst ms; by rewrite list_lookup_fmap, Hi).
  assert (Hj' : ms !! j = Some (middleware_layer mj))
    by (subst ms; by rewrite list_lookup_fmap, Hj).
  apply (outside_segment _ _ [_] (rev ms) _
           (length ms - S j) (length ms - S i)).
  - by apply rev_lookup.
  - by apply rev_lookup.
  - apply lookup_lt_Some in Hj'. lia.
Qed.

Lemma later_middleware_wraps_earlier_witness :
  let rh := {| handler_name := "two";
               rh_is_mount := false;
               rh_is_static := false;
               resolve_exception_handlers := [];
               resolve_middleware := [MPlain "first"; MPair "second" []] |} in
  outside (LUser "second" []) (LUser "first" [])
    (layers (build_route_middleware_stack
               Samples.csrf_app Samples.health_route rh)).
Proof.
  intros rh.
  exact (later_middleware_wraps_earlier
           Samples.csrf_app Samples.health_route rh 0 1
           (MPlain "first") (MPair "second" [])
           eq_refl eq_refl (le_n 1)).
Defined.

(** X2: the framework layers are nested in a fixed order, whatever the
    route: the host allow-list is outside compression and CSRF, compression
    is outside CSRF, and each of them is outside the inner exception
    wrapper and inside the outer one. *)
Theorem framework_layers_nesting
    (app : Starlite) (route : Route) (route_handler : RouteHandler) :
  let stack := layers (build_route_middleware_stack app route route_handler) in
  let wrapper :=
    LException (resolve_exception_handlers route_handler) (debug app) in
  (∀ a c, allowed_hosts app = Some a → compression_config app = Some c →
          outside (LAllowedHosts a) (LCompression c) stack)
  ∧ (∀ a s, allowed_hosts app = Some a → csrf_config app = Some s →
            outside (LAllowedHosts a) (LCSRF s) stack)
  ∧ (∀ c s, compression_config app = Some c → csrf_config app = Some s →
            outside (LCompression c) (LCSRF s) stack)
  ∧ (∀ F, F ∈ framework_layers app →
          outside wrapper F stack ∧ outside F wrapper stack).
Proof.
  intros stack wrapper. subst stack.
  rewrite layers_build_route_middleware_stack. fold wrapper.
  set (us := rev (middleware_layer <$> resolve_middleware route_handler)).
  assert (Hseg : ∀ x y i j,
             framework_layers app !! i = Some x →
             framework_layers app !! j = Some y → i < j →
             outside x y (wrapper :: us ++ framework_layers app ++ [wrapper])).
  { intros x y i j Hi Hj Hlt.
    apply (outside_segment x y (wrapper :: us) (framework_layers app)
             [wrapper] i j Hi Hj Hlt). }
  split_and!.
  - intros a c Ha Hc. unfold framework_layers in *. rewrite Ha, Hc in *.
    apply (Hseg _ _ 0 1); [reflexivity|reflexivity|lia].
  - intros a s Ha Hs. unfold framework_layers in *. rewrite Ha, Hs in *.
    destruct (compression_config app); simpl in *.
    + apply (Hseg _ _ 0 2); [reflexivity|reflexivity|lia].
    + apply (Hseg _ _ 0 1); [reflexivity|reflexivity|lia].
  - intros c s Hc Hs. unfold framework_layers in *. rewrite Hc, Hs in *.
    destruct (allowed_hosts app); simpl in *.
    + apply (Hseg _ _ 1 2); [reflexivity|reflexivity|lia].
    + apply (Hseg _ _ 0 1); [reflexivity|reflexivity|lia].
  - intros F (k & Hk)%list_elem_of_lookup. split.
    + exists 0, (S (length us + k)). split_and!; [done| |lia].
      simpl. rewrite lookup_app_r by lia.
      replace (length us + k - length us) with k by lia.
      by apply lookup_app_l_Some.
    + exists (S (length us + k)),
             (S (length us + length (framework_layers app))).
      split_and!.
      * simpl. rewrite lookup_app_r by lia.
        replace (length us + k - length us) with k by lia.
        by apply lookup_app_l_Some.
      * simpl. rewrite lookup_app_r by lia.
        rewrite lookup_app_r by lia.
        replace (length us + length (framework_layers app) - length us
                 - length (framework_layers app)) with 0 by lia.
        done.
      * apply lookup_lt_Some in Hk. lia.
Qed.

Lemma framework_layers_nesting_witness :
  let stack :=
    layers (build_route_middleware_stack
              Samples.full_app Samples.health_route Samples.guarded_handler) in
  outside (LAllowedHosts {| allowed_hosts_list := ["example.com"%string] |})
    (LCompression {| compression_backend := "gzip" |}) stack
  ∧ outside (LCompression {| compression_backend := "gzip" |})
      (LCSRF {| csrf_secret := "secret" |}) stack.
Proof.
  intros stack.
  pose proof (framework_layers_nesting
                Samples.full_app Samples.health_route Samples.guarded_handler)
    as (H1 & _ & H3 & _).
  split.
  - exact (H1 _ _ eq_refl eq_refl).
  - exact (H3 _ _ eq_refl eq_refl).
Defined.

(** * Further properties of configure_node *)

Section configure_lookup.
Variables (app : Starlite) (route : Route).

Lemma foldl_store_item_lookup items key n :
  NoDup items.*1 →
  asgi_handlers (foldl (store_item app route) n items) !! key
  = match fst <$> list_to_map (M := gmap string (RouteHandler * string))
                    items !! key with
    | Some rh => Some (handler_tuple app route rh)
    | None => asgi_handlers n !! key
    end
  ∧ path_parameters_of (foldl (store_item app route) n items) !! key
    = match fst <$> list_to_map (M := gmap string (RouteHandler * string))
                      items !! key with
      | Some rh => Some (path_parameters route)
      | None => path_parameters_of n !! key
      end.
Proof.
  revert n. induction items as [|[k [h i]] items IH]; intros n Hnd; simpl.
  - by rewrite lookup_empty.
  - apply list.NoDup_cons in Hnd as [Hk Hnd].
    destruct (IH (store_handler app route k h n) Hnd) as [-> ->].
    destruct (decide (k = key)) as [->|Hne].
    + rewrite lookup_insert_eq. simpl.
      rewrite (not_elem_of_list_to_map_1 items key Hk). simpl.
      unfold path_parameters_of. simpl. by rewrite !lookup_insert_eq.
    + rewrite lookup_insert_ne by done.
      destruct (list_to_map items !! key) as [[rh ?]|]; simpl; [done|].
      unfold path_parameters_of. simpl. by rewrite !lookup_insert_ne.
Qed.

(** What [configure_node] leaves under each key. *)
Lemma configure_node_lookup node key :
  asgi_handlers (configure_node app route node) !! key
  = match declared_handler route key with
    | Some rh => Some (handler_tuple app route rh)
    | None => asgi_handlers node !! key
    end
  ∧ path_parameters_of (configure_node app route node) !! key
    = match declared_handler route key with
      | Some rh => Some (path_parameters route)
      | None => path_parameters_of node !! key
      end.
Proof.
  rewrite configure_node_unfold. unfold declared_handler.
  destruct (guarded_spec node) as (Hga & Hgp & _).
  destruct (kind route) as [rhm|rh|rh].
  - destruct (foldl_store_item_lookup (map_to_list rhm) key (guarded node))
      as [-> ->]; [apply NoDup_fst_map_to_list|].
    rewrite list_to_map_to_list, Hga, Hgp. done.
  - unfold path_parameters_of in *. simpl. case_decide as Hk.
    + subst key. by rewrite !lookup_insert_eq.
    + rewrite !lookup_insert_ne by done. by rewrite Hga, Hgp.
  - unfold path_parameters_of in *. simpl. case_decide as Hk.
    + subst key. by rewrite !lookup_insert_eq.
    + rewrite !lookup_insert_ne by done. by rewrite Hga, Hgp.
Qed.

Lemma configure_node_path_parameters_Some node :
  node_path_parameters (configure_node app route node)
  = Some (path_parameters_of (configure_node app route node)).
Proof.
  rewrite configure_node_unfold.
  destruct (guarded_spec node) as (_ & _ & Hsome & _).
  assert (H : is_Some (node_path_parameters
                         (match kind route with
                          | HTTPRoute rhm =>
                              foldl (store_item app route) (guarded node)
                                (map_to_list rhm)
                          | WebSocketRoute rh =>
                              store_handler app route "websocket" rh
                                (guarded node)
                          | ASGIRoute rh =>
                              set_is_asgi true
                                (store_handler app route "asgi" rh
                                   (guarded node))
                          end))).
  { destruct (kind route); [by apply foldl_store_item_is_Some|by eexists..]. }
  destruct H as [m Hm]. unfold path_parameters_of. by rewrite Hm.
Qed.

Lemma configure_node_is_asgi node :
  is_asgi (configure_node app route node)
  = (if is_asgi_route route then true else is_asgi node).
Proof.
  rewrite configure_node_unfold. unfold is_asgi_route.
  destruct (guarded_spec node) as (_ & _ & _ & _ & Hasgi).
  destruct (kind route) as [rhm|rh|rh]; [|done..].
  by destruct (foldl_store_item_same_shape app route (map_to_list rhm)
                 (guarded node)) as [_ ->].
Qed.

Lemma configure_node_stored_declared node key rh :
  declared_handler route key = Some rh →
  stored app route key rh (configure_node app route node).
Proof.
  intros Hd. destruct (configure_node_lookup node key) as [Ha Hp].
  rewrite Hd in Ha, Hp. split; [exact Ha|].
  exists (path_parameters_of (configure_node app route node)).
  split; [apply configure_node_path_parameters_Some|exact Hp].
Qed.
End configure_lookup.

(** Two nodes with the same attributes are the same node value. *)
Lemma node_eq (n n' : RouteTrieNode) :
  asgi_handlers n = asgi_handlers n' →
  node_path_parameters n = node_path_parameters n' →
  is_asgi n = is_asgi n' →
  same_shape n n' →
  n = n'.
Proof.
  destruct n, n'. unfold same_shape. simpl.
  intros -> -> -> (-> & -> & -> & -> & -> & ->). done.
Qed.

Lemma configure_node_twice
    (app : Starlite) (route : Route) (node : RouteTrieNode) :
  configure_node app route (configure_node app route node)
  = configure_node app route node.
Proof.
  set (n1 := configure_node app route node).
  apply node_eq.
  - apply map_eq. intros key.
    destruct (configure_node_lookup app route n1 key) as [-> _].
    destruct (configure_node_lookup app route node key) as [Ha _].
    fold n1 in Ha. rewrite Ha. by destruct (declared_handler route key).
  - rewrite (configure_node_path_parameters_Some app route n1).
    unfold n1 at 2.
    rewrite (configure_node_path_parameters_Some app route node).
    fold n1. f_equal. apply map_eq. intros key.
    destruct (configure_node_lookup app route n1 key) as [_ ->].
    destruct (configure_node_lookup app route node key) as [_ Hp].
    fold n1 in Hp. rewrite Hp. by destruct (declared_handler route key).
  - rewrite (configure_node_is_asgi app route n1). subst n1.
    rewrite (configure_node_is_asgi app route node).
    by destruct (is_asgi_route route).
  - split_and!; symmetry;
      apply (configure_node_same_shape app route n1).
Qed.

(** X3: registering a route on a node a second time changes nothing:
    [configure_node] is idempotent. *)
Theorem configure_node_idempotent
    (app : Starlite) (route : Route) (node : RouteTrieNode) :
  configure_node app route (configure_node app route node)
  = configure_node app route node.
Proof. apply configure_node_twice. Qed.

(** X4: two routes that declare no common key can be registered on a node
    in either order, with the same result. *)
Theorem configure_node_commutes
    (app : Starlite) (route1 route2 : Route) (node : RouteTrieNode) :
  declared_keys route1 ## declared_keys route2 →
  configure_node app route1 (configure_node app route2 node)
  = configure_node app route2 (configure_node app route1 node).
Proof.
  intros Hdisj.
  assert (Hdecl : ∀ route key rh,
             declared_handler route key = Some rh →
             key ∈ declared_keys route).
  { intros route key rh. unfold declared_handler, declared_keys.
    destruct (kind route) as [rhm|?|?].
    - intros Hk. apply elem_of_dom.
      destruct (rhm !! key); [by eexists|done].
    - case_decide; [set_solver|done].
    - case_decide; [set_solver|done]. }
  assert (Hexcl : ∀ key rh1 rh2,
             declared_handler route1 key = Some rh1 →
             declared_handler route2 key = Some rh2 → False).
  { intros key rh1 rh2 H1%Hdecl H2%Hdecl. set_solver. }
  apply node_eq.
  - apply map_eq. intros key.
    rewrite !(proj1 (configure_node_lookup _ _ _ _)).
    destruct (declared_handler route1 key) eqn:H1,
             (declared_handler route2 key) eqn:H2; try done.
    exfalso. eauto.
  - rewrite !configure_node_path_parameters_Some. f_equal.
    apply map_eq. intros key.
    rewrite !(proj2 (configure_node_lookup _ _ _ _)).
    destruct (declared_handler route1 key) eqn:H1,
             (declared_handler route2 key) eqn:H2; try done.
    exfalso. eauto.
  - rewrite !configure_node_is_asgi.
    by destruct (is_asgi_route route1), (is_asgi_route route2).
  - eapply same_shape_trans.
    + split_and!; symmetry;
        apply (configure_node_same_shape app route1
                 (configure_node app route2 node)).
    + eapply same_shape_trans.
      * split_and!; symmetry;
          apply (configure_node_same_shape app route2 node).
      * eapply same_shape_trans;
          [apply (configure_node_same_shape app route1 node)|].
        apply configure_node_same_shape.
Qed.

Lemma configure_node_commutes_witness :
  declared_keys Samples.user_route ## declared_keys Samples.socket_route
  ∧ configure_node Samples.full_app Samples.user_route
      (configure_node Samples.full_app Samples.socket_route create_node)
    = configure_node Samples.full_app Samples.socket_route
        (configure_node Samples.full_app Samples.user_route create_node).
Proof.
  assert (Hd : declared_keys Samples.user_route
               ## declared_keys Samples.socket_route).
  { apply elem_of_disjoint. intros key H1 H2.
    unfold declared_keys in H2. simpl in H2.
    apply elem_of_singleton in H2. subst key.
    vm_compute in H1. discriminate H1. }
  split; [exact Hd|].
  exact (configure_node_commutes
           Samples.full_app Samples.user_route Samples.socket_route
           create_node Hd).
Defined.

(** * What the builder never takes away *)

Section kept.
Implicit Types (h : list RouteTrieNode) (l : nat) (n : RouteTrieNode).
Implicit Types (ex : option NodeKey).

Lemma node_kept_refl ex n : node_kept ex n n.
Proof. unfold node_kept. split_and!; auto. Qed.

Lemma node_kept_trans ex n1 n2 n3 :
  node_kept ex n1 n2 → node_kept ex n2 n3 → node_kept ex n1 n3.
Proof.
  unfold node_kept. intros H12 H23. destruct_and!.
  split_and!; auto; by etrans.
Qed.

(** Assignments to attributes that the relation does not constrain, or to
    a flag that is being set. *)
Lemma node_kept_same ex n n' :
  children n' = children n →
  asgi_handlers n' = asgi_handlers n →
  node_path_parameters n' = node_path_parameters n →
  (is_mount n = true → is_mount n' = true) →
  (is_asgi n = true → is_asgi n' = true) →
  (is_path_param_node n = true → is_path_param_node n' = true) →
  (is_path_type n = true → is_path_type n' = true) →
  node_kept ex n n'.
Proof.
  intros Hc Ha Hp ? ? ? ?. unfold node_kept, path_parameters_of.
  rewrite Hc, Ha, Hp. split_and!; auto.
Qed.

Lemma node_kept_set_child_new ex key c n :
  children n !! key = None → node_kept ex n (set_child key c n).
Proof.
  intros Hk. unfold node_kept, path_parameters_of. simpl.
  split_and!; auto.
  - rewrite dom_insert_L. set_solver.
  - intros k c' _ Hc'. rewrite lookup_insert_ne; [done|]. congruence.
Qed.

Lemma node_kept_set_child_except key c n :
  node_kept (Some key) n (set_child key c n).
Proof.
  unfold node_kept, path_parameters_of. simpl. split_and!; auto.
  - rewrite dom_insert_L. set_solver.
  - intros k c' Hne Hc'. rewrite lookup_insert_ne; [done|]. congruence.
Qed.

Lemma node_kept_visited ex component fresh n :
  node_kept ex n (visited component fresh n).
Proof.
  unfold node_kept, path_parameters_of.
  rewrite visited_children, visited_is_path_param_node,
    visited_is_path_type.
  replace (asgi_handlers (visited component fresh n))
    with (asgi_handlers n)
    by (unfold visited; destruct component; simpl; by case_decide).
  replace (node_path_parameters (visited component fresh n))
    with (node_path_parameters n)
    by (unfold visited; destruct component; simpl; by case_decide).
  replace (is_mount (visited component fresh n)) with (is_mount n)
    by (unfold visited; destruct component; simpl; by case_decide).
  replace (is_asgi (visited component fresh n)) with (is_asgi n)
    by (unfold visited; destruct component; simpl; by case_decide).
  split_and!; auto.
  - case_decide; [|done]. rewrite dom_insert_L. set_solver.
  - intros k c _ Hc. case_decide as Hk; [|done].
    rewrite lookup_insert_ne; [done|]. congruence.
  - by destruct component.
Qed.

Lemma node_kept_configure_node ex app route n :
  node_kept ex n (configure_node app route n).
Proof.
  destruct (configure_node_same_shape app route n)
    as (Hc & _ & Hm & _ & Hpp & Hpt).
  unfold node_kept. rewrite Hc, Hm, Hpp, Hpt, configure_node_is_asgi.
  split_and!; auto.
  - intros key [t Ht]%elem_of_dom. apply elem_of_dom.
    rewrite (proj1 (configure_node_lookup app route n key)).
    destruct (declared_handler route key); [by eexists|by rewrite Ht].
  - intros key [t Ht]%elem_of_dom. apply elem_of_dom.
    rewrite (proj2 (configure_node_lookup app route n key)).
    destruct (declared_handler route key); [by eexists|by rewrite Ht].
  - by destruct (is_asgi_route route).
Qed.

Lemma pointwise_refl R h : (∀ n, R n n) → pointwise R h h.
Proof. intros HR l n Hn. eauto. Qed.

Lemma pointwise_trans R h1 h2 h3 :
  (∀ n1 n2 n3, R n1 n2 → R n2 n3 → R n1 n3) →
  pointwise R h1 h2 → pointwise R h2 h3 → pointwise R h1 h3.
Proof.
  intros HR H12 H23 l n Hn.
  destruct (H12 l n Hn) as (n' & Hn' & HR1).
  destruct (H23 l n' Hn') as (n'' & Hn'' & HR2). eauto.
Qed.

Lemma pointwise_upd R h l f h' :
  (∀ n, R n n) →
  (∀ n, h !! l = Some n → R n (f n)) →
  upd h l f = Some h' → pointwise R h h'.
Proof.
  intros Hrefl Hf Hupd l' n Hn. rewrite (upd_lookup _ _ _ _ l' Hupd).
  case_decide; subst; rewrite Hn; simpl; eauto.
Qed.

Lemma pointwise_ensure_child R h l key h' :
  (∀ n, R n n) →
  (∀ n c, children n !! key = None → R n (set_child key c n)) →
  ensure_child h l key = Some h' → pointwise R h h'.
Proof.
  intros Hrefl Hset (n & Hn & [[_ ->]|[Hc ->]])%ensure_child_Some;
    [by apply pointwise_refl|].
  intros l' n' Hn'. pose proof (lookup_lt_Some _ _ _ Hn') as Hlt.
  rewrite lookup_app_l by (by rewrite length_insert).
  destruct (decide (l = l')) as [<-|Hne].
  - rewrite list_lookup_insert_eq by done. simplify_eq. eauto.
  - rewrite list_lookup_insert_ne by done. eauto.
Qed.

Lemma pointwise_length R h h' : pointwise R h h' → length h ≤ length h'.
Proof.
  intros Hp. destruct (decide (length h ≤ length h')) as [|Hgt]; [done|].
  assert (Hlt : length h' < length h) by lia.
  destruct (lookup_lt_is_Some_2 _ _ Hlt) as [n Hn].
  destruct (Hp _ _ Hn) as (n' & Hn' & _).
  apply lookup_lt_Some in Hn'. lia.
Qed.

Lemma mount_step_kept ex h l component h' next :
  mount_step h l component = Some (h', next) →
  pointwise (node_kept ex) h h'.
Proof.
  unfold mount_step. intros Hrun.
  apply bind_Some in Hrun as (h1 & Hens & Hrun).
  apply bind_Some in Hrun as (c & _ & Hrun). simplify_eq.
  eapply pointwise_ensure_child; [apply node_kept_refl| |exact Hens].
  intros n c'. apply node_kept_set_child_new.
Qed.

Lemma mount_walk_kept ex components h l h' last :
  mount_walk h l components = Some (h', last) →
  pointwise (node_kept ex) h h'.
Proof.
  revert h l. induction components as [|c cs IH]; intros h l Hrun;
    simpl in Hrun.
  - simplify_eq. apply pointwise_refl, node_kept_refl.
  - apply bind_Some in Hrun as ([h1 next] & Hstep & Hrun).
    eapply pointwise_trans; [apply node_kept_trans| |by eapply IH].
    by eapply mount_step_kept.
Qed.

Lemma param_step_kept ex h l component h' next :
  param_step h l component = Some (h', next) →
  pointwise (node_kept ex) h h'.
Proof.
  rewrite param_step_unfold. intros Hrun.
  apply bind_Some in Hrun as (n & Hn & Hrun). simpl in Hrun.
  apply bind_Some in Hrun as (c & _ & Hrun).
  apply bind_Some in Hrun as (h4 & Hh4 & Hrun). simplify_eq.
  pose proof (lookup_lt_Some _ _ _ Hn) as Hlt.
  set (h0 := if decide (children n !! next_node_key component = None)
             then h ++ [create_node] else h) in *.
  assert (H0 : pointwise (node_kept ex) h h0).
  { subst h0. case_decide; [|apply pointwise_refl, node_kept_refl].
    intros l' n' Hn'. exists n'. split; [by apply lookup_app_l_Some|].
    apply node_kept_refl. }
  assert (Hn0 : h0 !! l = Some n).
  { subst h0. case_decide; [by apply lookup_app_l_Some|done]. }
  assert (H3 : pointwise (node_kept ex) h
                 (<[l := visited component (length h) n]> h0)).
  { eapply pointwise_trans; [apply node_kept_trans|exact H0|].
    eapply (pointwise_upd _ _ l (λ _, visited component (length h) n));
      [apply node_kept_refl|
      |exact (upd_eq h0 l (λ _, visited component (length h) n) n Hn0)].
    intros n' Hn'. simplify_eq. apply node_kept_visited. }
  destruct (is_path_component component); [|by simplify_eq].
  eapply pointwise_trans; [apply node_kept_trans|exact H3|].
  eapply pointwise_upd; [apply node_kept_refl| |exact Hh4].
  intros n' _. by apply node_kept_same.
Qed.

Lemma param_walk_kept ex components h l h' last :
  param_walk h l components = Some (h', last) →
  pointwise (node_kept ex) h h'.
Proof.
  revert h l. induction components as [|c cs IH]; intros h l Hrun;
    simpl in Hrun.
  - simplify_eq. apply pointwise_refl, node_kept_refl.
  - apply bind_Some in Hrun as ([h1 next] & Hstep & Hrun).
    eapply pointwise_trans; [apply node_kept_trans| |by eapply IH].
    by eapply param_step_kept.
Qed.
End kept.

Section branches.
Implicit Types (h : list RouteTrieNode) (l : nat) (n : RouteTrieNode).
Implicit Types (st : TrieState).

(** Overwriting a node by one with the same children changes no link. *)
Lemma child_of_insert_same_children h l n n' l0 key :
  h !! l = Some n → children n' = children n →
  child_of (<[l := n']> h) l0 key = child_of h l0 key.
Proof.
  intros Hn Hc. pose proof (lookup_lt_Some _ _ _ Hn) as Hlt.
  unfold child_of. destruct (decide (l = l0)) as [<-|Hne].
  - rewrite list_lookup_insert_eq by done. rewrite Hn. simpl. by rewrite Hc.
  - by rewrite list_lookup_insert_ne.
Qed.

Lemma pointwise_child_of ex h h' l key c :
  pointwise (node_kept ex) h h' → Some key ≠ ex →
  child_of h l key = Some c → child_of h' l key = Some c.
Proof.
  intros Hp Hne. unfold child_of.
  destruct (h !! l) as [n|] eqn:Hn; simpl; [|done]. intros Hc.
  destruct (Hp l n Hn) as (n' & -> & _ & Hkeep & _). simpl. auto.
Qed.

Lemma pointwise_child_of_is_Some ex h h' l key :
  pointwise (node_kept ex) h h' →
  is_Some (child_of h l key) → is_Some (child_of h' l key).
Proof.
  intros Hp. unfold child_of.
  destruct (h !! l) as [n|] eqn:Hn; simpl; [|by intros [? ?]].
  intros Hc%elem_of_dom.
  destruct (Hp l n Hn) as (n' & -> & Hdom & _). simpl.
  apply elem_of_dom. set_solver.
Qed.

(** The statements after the loop of [add_mount_route]: what they leave. *)
Lemma mark_mount_result h1 st root cur route st' l :
  mark_mount h1 st root cur route = Some (st', l) →
  l = cur
  ∧ mount_routes st' = <[path route := cur]> (mount_routes st)
  ∧ plain_routes st' = plain_routes st
  ∧ pointwise (node_kept (Some (KStr (path route)))) h1 (nodes st')
  ∧ (∃ n rh, route_handler_of route = Some rh
             ∧ nodes st' !! cur = Some n
             ∧ is_mount n = true
             ∧ is_static n = rh_is_static rh)
  ∧ (path route ≠ "/"%string →
     child_of (nodes st') root (KStr (path route)) = Some cur).
Proof.
  unfold mark_mount. intros Hrun.
  apply bind_Some in Hrun as (h2 & Hh2 & Hrun).
  apply bind_Some in Hrun as (rh & Hrh & Hrun).
  apply bind_Some in Hrun as (h3 & Hh3 & Hrun).
  set (ex := Some (KStr (path route))).
  assert (H13 : pointwise (node_kept ex) h1 h3).
  { eapply pointwise_trans; [apply node_kept_trans|..].
    - eapply pointwise_upd; [apply node_kept_refl| |exact Hh2].
      intros n _. by apply node_kept_same.
    - eapply pointwise_upd; [apply node_kept_refl| |exact Hh3].
      intros n _. by apply node_kept_same. }
  assert (Hcur3 : ∃ n, h3 !! cur = Some n ∧ is_mount n = true
                       ∧ is_static n = rh_is_static rh).
  { apply upd_Some in Hh2 as (n1 & Hn1 & ->).
    apply upd_Some in Hh3 as (n2 & Hn2 & ->).
    pose proof (lookup_lt_Some _ _ _ Hn1) as Hlt.
    rewrite list_lookup_insert_eq in Hn2 by done. simplify_eq.
    rewrite list_lookup_insert_eq by (by rewrite length_insert).
    by eexists. }
  destruct Hcur3 as (n3 & Hn3 & Hm3 & Hs3).
  case_decide as Hp.
  - apply bind_Some in Hrun as (h4 & Hh4 & Hrun). simplify_eq. simpl.
    split_and!; try done.
    + eapply pointwise_trans; [apply node_kept_trans|exact H13|].
      eapply pointwise_upd; [apply node_kept_refl| |exact Hh4].
      intros n _. apply node_kept_set_child_except.
    + rewrite (upd_lookup _ _ _ _ l Hh4). case_decide.
      * rewrite Hn3. simpl. by eexists _, _.
      * by eexists _, _.
    + intros _. unfold child_of. rewrite (upd_lookup _ _ _ _ root Hh4).
      rewrite decide_True by done.
      apply upd_Some in Hh4 as (nr & -> & _). simpl.
      apply lookup_insert_eq.
  - simplify_eq. simpl. split_and!; try done. by eexists _, _.
Qed.

Lemma add_mount_route_result st root route st' l :
  add_mount_route root st root route = Some (st', l) →
  mount_routes st' = <[path route := l]> (mount_routes st)
  ∧ plain_routes st' = plain_routes st
  ∧ pointwise (node_kept (Some (KStr (path route)))) (nodes st) (nodes st')
  ∧ (∃ n rh, route_handler_of route = Some rh
             ∧ nodes st' !! l = Some n
             ∧ is_mount n = true
             ∧ is_static n = rh_is_static rh)
  ∧ (path route ≠ "/"%string →
     child_of (nodes st') root (KStr (path route)) = Some l).
Proof.
  unfold add_mount_route. intros Hrun.
  apply bind_Some in Hrun as (r & Hr & Hrun).
  apply bind_Some in Hrun as ([[h1 root'] cur] & Hloop & Hrun).
  assert (Hroot' : root' = root ∧ pointwise
            (node_kept (Some (KStr (path route)))) (nodes st) h1).
  { case_decide.
    - apply bind_Some in Hloop as ([h' last] & Hwalk & Hloop). simplify_eq.
      split; [done|]. by eapply mount_walk_kept.
    - simplify_eq. split; [done|]. apply pointwise_refl, node_kept_refl. }
  destruct Hroot' as [-> H01].
  destruct (mark_mount_result _ _ _ _ _ _ _ Hrun)
    as (-> & Hm & Hpl & H1 & Hnode & Hchild).
  split_and!; try done.
  eapply pointwise_trans; [apply node_kept_trans|exact H01|exact H1].
Qed.

Lemma add_plain_route_result ex st root route st' l :
  add_plain_route st root route = Some (st', l) →
  mount_routes st' = mount_routes st
  ∧ plain_routes st' = {[path route]} ∪ plain_routes st
  ∧ pointwise (node_kept ex) (nodes st) (nodes st')
  ∧ child_of (nodes st') root (KStr (path route)) = Some l.
Proof.
  unfold add_plain_route. intros Hrun.
  apply bind_Some in Hrun as (h1 & Hens & Hrun).
  apply bind_Some in Hrun as (c & Hc & Hrun). simplify_eq. simpl.
  split_and!; try done.
  eapply pointwise_ensure_child; [apply node_kept_refl| |exact Hens].
  intros n c'. apply node_kept_set_child_new.
Qed.

Lemma add_param_route_result ex st root route st' l :
  add_param_route st root route = Some (st', l) →
  mount_routes st' = mount_routes st
  ∧ plain_routes st' = plain_routes st
  ∧ pointwise (node_kept ex) (nodes st) (nodes st').
Proof.
  unfold add_param_route. intros Hrun.
  apply bind_Some in Hrun as ([h1 last] & Hwalk & Hrun). simplify_eq. simpl.
  split_and!; try done. by eapply param_walk_kept.
Qed.

(** One call of [add_route_to_trie]: the indexes and what is kept. *)
Lemma add_route_to_trie_result app st root route st' l :
  add_route_to_trie app st root route = Some (st', l) →
  pointwise (node_kept (redirected_key route)) (nodes st) (nodes st')
  ∧ mount_routes st'
    = (if is_mount_route route
       then <[path route := l]> (mount_routes st) else mount_routes st)
  ∧ plain_routes st'
    = (if is_mount_route route || has_path_parameters route
       then plain_routes st else {[path route]} ∪ plain_routes st)
  ∧ (is_mount_route route = true →
     (∃ n, nodes st' !! l = Some n ∧ is_mount n = true)
     ∧ (path route ≠ "/"%string →
        child_of (nodes st') root (KStr (path route)) = Some l))
  ∧ (is_mount_route route = false → has_path_parameters route = false →
     child_of (nodes st') root (KStr (path route)) = Some l).
Proof.
  intros Hrun.
  destruct (add_route_to_trie_Some _ _ _ _ _ _ Hrun)
    as (st1 & n1 & Hbranch & Hn1 & Hnodes).
  assert (Hst' : mount_routes st' = mount_routes st1
                 ∧ plain_routes st' = plain_routes st1).
  { unfold add_route_to_trie in Hrun. rewrite Hbranch in Hrun.
    simpl in Hrun. apply bind_Some in Hrun as (h' & _ & Hrun).
    by simplify_eq. }
  destruct Hst' as [-> ->]. rewrite Hnodes.
  pose proof (configure_node_children app route n1) as Hcc.
  assert (Hcfg : pointwise (node_kept (redirected_key route)) (nodes st1)
                   (<[l := configure_node app route n1]> (nodes st1))).
  { eapply pointwise_upd; [apply node_kept_refl| |by apply upd_eq].
    intros n _. apply node_kept_configure_node. }
  assert (Hshape := configure_node_same_shape app route n1).
  unfold redirected_key in *.
  destruct (is_mount_route route) eqn:Hm; simpl.
  - destruct (add_mount_route_result _ _ _ _ _ Hbranch)
      as (Hmr & Hpr & Hkept & (n & rh & _ & Hn & Hmount & _) & Hchild).
    split_and!; try done.
    + eapply pointwise_trans; [apply node_kept_trans|exact Hkept|exact Hcfg].
    + intros _. split.
      * rewrite list_lookup_insert_eq by (by eapply lookup_lt_Some).
        eexists. split; [done|]. simplify_eq.
        by destruct Hshape as (_ & _ & -> & _).
      * intros Hp.
        rewrite (child_of_insert_same_children _ _ _ _ _ _ Hn1 Hcc). auto.
  - destruct (has_path_parameters route) eqn:Hp; simpl in *.
    + destruct (add_param_route_result None _ _ _ _ _ Hbranch)
        as (Hmr & Hpr & Hkept).
      split_and!; try done.
      eapply pointwise_trans; [apply node_kept_trans|exact Hkept|exact Hcfg].
    + destruct (add_plain_route_result None _ _ _ _ _ Hbranch)
        as (Hmr & Hpr & Hkept & Hchild).
      split_and!; try done.
      * eapply pointwise_trans;
          [apply node_kept_trans|exact Hkept|exact Hcfg].
      * intros _ _.
        by rewrite (child_of_insert_same_children _ _ _ _ _ _ Hn1 Hcc).
Qed.
End branches.

(** X5: a call of [add_route_to_trie] takes nothing away.  Every node is
    still there and has every child key, handler key and parameter key it
    had, and every flag among [is_mount], [is_asgi], [is_path_param_node]
    and [is_path_type] that was set; a child link leads where it led,
    except the link under the path of a mount, which that mount redirects;
    and the two indexes only grow. *)
Theorem add_route_to_trie_keeps
    (app : Starlite) (st : TrieState) (root : nat) (route : Route) :
  wf (nodes st) →
  root < length (nodes st) →
  ∃ st' l,
    add_route_to_trie app st root route = Some (st', l)
    ∧ pointwise (node_kept (redirected_key route)) (nodes st) (nodes st')
    ∧ plain_routes st ⊆ plain_routes st'
    ∧ dom (mount_routes st) ⊆ dom (mount_routes st').
Proof.
  intros Hwf Hroot.
  destruct (add_route_to_trie_inv app st root route Hwf Hroot)
    as (st' & l & Hrun & _).
  destruct (add_route_to_trie_result _ _ _ _ _ _ Hrun)
    as (Hkept & Hmr & Hpr & _).
  exists st', l. split_and!; [done|done|..].
  - rewrite Hpr. destruct (_ || _); set_solver.
  - rewrite Hmr. destruct (is_mount_route route); [|done].
    rewrite dom_insert_L. set_solver.
Qed.

Lemma add_route_to_trie_keeps_witness :
  wf (nodes Samples.health_trie)
  ∧ 0 < length (nodes Samples.health_trie)
  ∧ ∃ st' l,
      add_route_to_trie Samples.full_app Samples.health_trie 0
        Samples.clash_route = Some (st', l)
      ∧ pointwise (node_kept (Some (KStr "/health")))
          (nodes Samples.health_trie) (nodes st')
      ∧ plain_routes Samples.health_trie ⊆ plain_routes st'.
Proof.
  assert (Hwf : wf (nodes Samples.health_trie)).
  { destruct (add_route_to_trie_inv Samples.csrf_app fresh_trie 0
                Samples.health_route wf_fresh)
      as (st1 & l & Hrun & Hwf1 & _); [simpl; lia|].
    unfold Samples.health_trie. rewrite Hrun. exact Hwf1. }
  assert (Hroot : 0 < length (nodes Samples.health_trie))
    by (vm_compute; lia).
  split; [exact Hwf|]. split; [exact Hroot|].
  destruct (add_route_to_trie_keeps
              Samples.full_app Samples.health_trie 0 Samples.clash_route
              Hwf Hroot)
    as (st' & l & Hrun & Hkept & Hplain & _).
  by exists st', l.
Defined.

Section indexes.
Implicit Types (st : TrieState).

Lemma indexes_ok_fresh : indexes_ok fresh_trie 0.
Proof.
  split.
  - intros p Hp. simpl in Hp. set_solver.
  - intros p l Hl. simpl in Hl. by rewrite lookup_empty in Hl.
Qed.

(** One call keeps what lookups rely on. *)
Lemma add_route_to_trie_indexes_ok app st root route st' l :
  indexes_ok st root →
  add_route_to_trie app st root route = Some (st', l) →
  indexes_ok st' root.
Proof.
  intros [Hplain Hmount] Hrun.
  destruct (add_route_to_trie_result _ _ _ _ _ _ Hrun)
    as (Hkept & Hmr & Hpr & Hm & Hp).
  split.
  - intros p. rewrite Hpr. intros Hin.
    assert (Hcase : p ∈ plain_routes st
                    ∨ (p = path route ∧ is_mount_route route = false
                       ∧ has_path_parameters route = false)).
    { destruct (is_mount_route route), (has_path_parameters route);
        simpl in Hin; set_solver. }
    destruct Hcase as [Hold|(-> & Hnm & Hnp)].
    + eapply pointwise_child_of_is_Some; [exact Hkept|]. by apply Hplain.
    + rewrite (Hp Hnm Hnp). by eexists.
  - intros p l0. rewrite Hmr. intros Hl0.
    assert (Hcase : (is_mount_route route = true ∧ p = path route ∧ l0 = l)
                    ∨ (mount_routes st !! p = Some l0
                       ∧ Some (KStr p) ≠ redirected_key route)).
    { unfold redirected_key.
      destruct (is_mount_route route); [|right; split; [done|congruence]].
      apply lookup_insert_Some in Hl0 as [[<- <-]|[Hne Hl0]]; [by left|].
      right. split; [done|]. congruence. }
    destruct Hcase as [(Hmt & -> & ->)|[Hold Hne]].
    + by apply Hm.
    + destruct (Hmount p l0 Hold) as [(n & Hn & Hmn) Hchild]. split.
      * destruct (Hkept l0 n Hn) as (n' & Hn' & Hk).
        exists n'. split; [done|].
        destruct Hk as (_ & _ & _ & _ & Hmk & _). auto.
      * intros Hp0. eapply pointwise_child_of; [exact Hkept|exact Hne|].
        by apply Hchild.
Qed.

Lemma add_routes_indexes app routes st root :
  wf (nodes st) → root < length (nodes st) → indexes_ok st root →
  ∃ st',
    add_routes app st root routes = Some st'
    ∧ indexes_ok st' root
    ∧ plain_routes st'
      = plain_routes st
        ∪ list_to_set
            (path <$> filter (λ r, is_mount_route r = false
                                   ∧ has_path_parameters r = false) routes)
    ∧ dom (mount_routes st')
      = dom (mount_routes st)
        ∪ list_to_set
            (path <$> filter (λ r, is_mount_route r = true) routes).
Proof.
  revert st. induction routes as [|route routes IH]; intros st Hwf Hroot Hok.
  - exists st. simpl. split_and!; [done|done|..]; set_solver.
  - destruct (add_route_to_trie_inv app st root route Hwf Hroot)
      as (st1 & l & Hrun & Hwf1 & _ & Hlen & _).
    pose proof (add_route_to_trie_indexes_ok _ _ _ _ _ _ Hok Hrun) as Hok1.
    destruct (add_route_to_trie_result _ _ _ _ _ _ Hrun)
      as (_ & Hmr & Hpr & _).
    destruct (IH st1 Hwf1) as (st' & Hrest & Hok' & Hpl & Hmt);
      [lia|done|].
    exists st'. simpl. rewrite Hrun. simpl.
    split_and!; [done|done|..].
    + rewrite Hpl, Hpr, filter_cons. case_decide as Hd.
      * destruct Hd as [-> ->]. simpl. set_solver.
      * destruct (is_mount_route route), (has_path_parameters route);
          simpl; try done. exfalso. auto.
    + rewrite Hmt, Hmr, filter_cons. case_decide as Hd.
      * rewrite Hd. simpl. rewrite dom_insert_L. set_solver.
      * destruct (is_mount_route route); done.
Qed.
End indexes.

(** X6: the indexes of a trie built from a new root.  [plain_routes] is
    the set of the paths of the routes that are no mounts and have no path
    parameters; the keys of [mount_routes] are the paths of the mounts; a
    plain path is always a child key of the root, and an entry of
    [mount_routes] always leads to a node marked [is_mount], which for a
    path other than ["/"] is the root's child under the path. *)
Theorem built_trie_indexes (app : Starlite) (routes : list Route) :
  ∃ st,
    add_routes app fresh_trie 0 routes = Some st
    ∧ plain_routes st
      = list_to_set
          (path <$> filter (λ r, is_mount_route r = false
                                 ∧ has_path_parameters r = false) routes)
    ∧ dom (mount_routes st)
      = list_to_set (path <$> filter (λ r, is_mount_route r = true) routes)
    ∧ indexes_ok st 0.
Proof.
  destruct (add_routes_indexes app routes fresh_trie 0 wf_fresh)
    as (st & Hrun & Hok & Hpl & Hmt); [simpl; lia|apply indexes_ok_fresh|].
  exists st. split_and!; [done| | |done].
  - rewrite Hpl. simpl. set_solver.
  - rewrite Hmt. simpl. rewrite dom_empty_L. set_solver.
Qed.

(** * Finding a route that has been added *)

(** The node [add_route_to_trie] returns carries the route's handlers. *)
Lemma add_route_to_trie_registers app st root route st' l :
  add_route_to_trie app st root route = Some (st', l) →
  ∃ n, nodes st' !! l = Some n
       ∧ (∀ key rh, declared_handler route key = Some rh →
                    stored app route key rh n)
       ∧ (is_asgi_route route = true → is_asgi n = true).
Proof.
  intros Hrun.
  destruct (add_route_to_trie_Some _ _ _ _ _ _ Hrun)
    as (st1 & n1 & _ & Hn1 & ->).
  exists (configure_node app route n1). split_and!.
  - apply list_lookup_insert_eq. by eapply lookup_lt_Some.
  - intros key rh. apply configure_node_stored_declared.
  - intros Hasgi. by rewrite configure_node_is_asgi, Hasgi.
Qed.

(** X7: a route without path parameters that is no mount can be found the
    way it was put in: after the call its path is in [plain_routes], the
    root's child under the whole path is the node returned, and that node
    holds, under each key the route declares, the stack composed for the
    handler, the handler, and the route's parameter list. *)
Theorem plain_route_found
    (app : Starlite) (st : TrieState) (root : nat) (route : Route) :
  wf (nodes st) →
  root < length (nodes st) →
  is_mount_route route = false →
  has_path_parameters route = false →
  ∃ st' l n,
    add_route_to_trie app st root route = Some (st', l)
    ∧ path route ∈ plain_routes st'
    ∧ child_of (nodes st') root (KStr (path route)) = Some l
    ∧ nodes st' !! l = Some n
    ∧ ∀ key rh, declared_handler route key = Some rh →
                stored app route key rh n.
Proof.
  intros Hwf Hroot Hm Hp.
  destruct (add_route_to_trie_inv app st root route Hwf Hroot)
    as (st' & l & Hrun & _).
  destruct (add_route_to_trie_result _ _ _ _ _ _ Hrun)
    as (_ & _ & Hpr & _ & Hchild).
  destruct (add_route_to_trie_registers _ _ _ _ _ _ Hrun)
    as (n & Hn & Hstored & _).
  exists st', l, n. split_and!; [done| |by apply Hchild|done|done].
  rewrite Hpr, Hm, Hp. simpl. set_solver.
Qed.

Lemma plain_route_found_witness :
  wf (nodes fresh_trie)
  ∧ 0 < length (nodes fresh_trie)
  ∧ ∃ st' l n,
      add_route_to_trie Samples.csrf_app fresh_trie 0 Samples.health_route
      = Some (st', l)
      ∧ path Samples.health_route ∈ plain_routes st'
      ∧ child_of (nodes st') 0 (KStr "/health") = Some l
      ∧ nodes st' !! l = Some n
      ∧ stored Samples.csrf_app Samples.health_route "GET"
          Samples.guarded_handler n.
Proof.
  assert (Hroot : 0 < length (nodes fresh_trie)) by (simpl; lia).
  split; [exact wf_fresh|]. split; [exact Hroot|].
  destruct (plain_route_found
              Samples.csrf_app fresh_trie 0 Samples.health_route
              wf_fresh Hroot eq_refl eq_refl)
    as (st' & l & n & Hrun & Hin & Hchild & Hn & Hstored).
  exists st', l, n. split_and!; try assumption.
  apply Hstored. reflexivity.
Defined.

(** X8: a route with path parameters can be found by walking: after the
    call, following from the root the literal components and, for every
    parameter, the sentinel, one arrives at the node returned, which holds
    the route's handlers under the keys the route declares. *)
Theorem param_route_found
    (app : Starlite) (st : TrieState) (root : nat) (route : Route) :
  wf (nodes st) →
  root < length (nodes st) →
  is_mount_route route = false →
  has_path_parameters route = true →
  ∃ st' l n,
    add_route_to_trie app st root route = Some (st', l)
    ∧ descend (nodes st') root (next_node_key <$> path_components route)
      = Some l
    ∧ nodes st' !! l = Some n
    ∧ (∀ key rh, declared_handler route key = Some rh →
                 stored app route key rh n)
    ∧ mount_routes st' = mount_routes st
    ∧ plain_routes st' = plain_routes st.
Proof.
  intros Hwf Hroot Hm Hp.
  destruct (add_route_to_trie_param app st root route Hwf Hroot Hm Hp)
    as (h1 & l & n1 & Hwalk & Hn1 & Hrun).
  destruct (param_walk_spec (path_components route) (nodes st) root
              Hwf Hroot)
    as (h1' & l' & Hwalk' & _ & _ & _ & Hdesc & _).
  rewrite Hwalk in Hwalk'. symmetry in Hwalk'. simplify_eq.
  destruct (add_route_to_trie_registers _ _ _ _ _ _ Hrun)
    as (n & Hn & Hstored & _).
  eexists _, l, n. split; [exact Hrun|]. simpl in *.
  split_and!; try done.
  rewrite (descend_insert_same_children _ _ _ _ _ _ Hn1); [done|].
  apply configure_node_children.
Qed.

Lemma param_route_found_witness :
  wf (nodes Samples.health_trie)
  ∧ 0 < length (nodes Samples.health_trie)
  ∧ ∃ st' l n,
      add_route_to_trie Samples.full_app Samples.health_trie 0
        Samples.user_route = Some (st', l)
      ∧ descend (nodes st') 0 [KStr "users"; PathParameterSentinel] = Some l
      ∧ nodes st' !! l = Some n
      ∧ stored Samples.full_app Samples.user_route "POST"
          Samples.guarded_handler n.
Proof.
  assert (Hwf : wf (nodes Samples.health_trie)).
  { destruct (add_route_to_trie_inv Samples.csrf_app fresh_trie 0
                Samples.health_route wf_fresh)
      as (st1 & l & Hrun & Hwf1 & _); [simpl; lia|].
    unfold Samples.health_trie. rewrite Hrun. exact Hwf1. }
  assert (Hroot : 0 < length (nodes Samples.health_trie))
    by (vm_compute; lia).
  split; [exact Hwf|]. split; [exact Hroot|].
  destruct (param_route_found
              Samples.full_app Samples.health_trie 0 Samples.user_route
              Hwf Hroot eq_refl eq_refl)
    as (st' & l & n & Hrun & Hdesc & Hn & Hstored & _).
  exists st', l, n. split_and!; try assumption.
  apply Hstored. reflexivity.
Defined.

(** X9: a mount can be found through [mount_routes]: after the call the
    path leads there to the node returned, which is marked [is_mount], has
    the handler's [is_static], holds the route's handlers, and for a path
    other than ["/"] is also the root's child under the whole path. *)
Theorem mount_route_found
    (app : Starlite) (st : TrieState) (root : nat) (route : Route) :
  wf (nodes st) →
  root < length (nodes st) →
  is_mount_route route = true →
  ∃ st' l n rh,
    add_route_to_trie app st root route = Some (st', l)
    ∧ route_handler_of route = Some rh
    ∧ mount_routes st' !! path route = Some l
    ∧ nodes st' !! l = Some n
    ∧ is_mount n = true
    ∧ is_static n = rh_is_static rh
    ∧ (∀ key rh', declared_handler route key = Some rh' →
                  stored app route key rh' n)
    ∧ (is_asgi_route route = true → is_asgi n = true)
    ∧ (path route ≠ "/"%string →
       child_of (nodes st') root (KStr (path route)) = Some l)
    ∧ plain_routes st' = plain_routes st.
Proof.
  intros Hwf Hroot Hm.
  destruct (add_route_to_trie_inv app st root route Hwf Hroot)
    as (st' & l & Hrun & _).
  destruct (add_route_to_trie_result _ _ _ _ _ _ Hrun)
    as (_ & Hmr & Hpr & Hmount & _).
  destruct (add_route_to_trie_registers _ _ _ _ _ _ Hrun)
    as (n & Hn & Hstored & Hasgi).
  destruct (add_route_to_trie_Some _ _ _ _ _ _ Hrun)
    as (st1 & n1 & Hbranch & Hn1 & Hnodes).
  rewrite Hm in Hbranch.
  destruct (add_mount_route_result _ _ _ _ _ Hbranch)
    as (_ & _ & _ & (n0 & rh & Hrh & Hn0 & _ & Hstatic) & _).
  destruct (Hmount Hm) as [(n' & Hn' & Hmn) Hchild].
  rewrite Hm in Hmr, Hpr. simpl in Hpr. simplify_eq.
  exists st', l, n, rh. split_and!; try done.
  - rewrite Hmr. apply lookup_insert_eq.
  - rewrite Hnodes in Hn.
    rewrite list_lookup_insert_eq in Hn by (by eapply lookup_lt_Some).
    simplify_eq.
    by destruct (configure_node_same_shape app route n1)
      as (_ & _ & _ & -> & _).
Qed.

Lemma mount_route_found_witness :
  wf (nodes fresh_trie)
  ∧ 0 < length (nodes fresh_trie)
  ∧ ∃ st' l n,
      add_route_to_trie Samples.csrf_app fresh_trie 0 Samples.static_route
      = Some (st', l)
      ∧ mount_routes st' !! "/static/assets"%string = Some l
      ∧ child_of (nodes st') 0 (KStr "/static/assets") = Some l
      ∧ nodes st' !! l = Some n
      ∧ is_mount n = true
      ∧ is_static n = true
      ∧ is_asgi n = true
      ∧ stored Samples.csrf_app Samples.static_route "asgi"
          Samples.static_handler n.
Proof.
  assert (Hroot : 0 < length (nodes fresh_trie)) by (simpl; lia).
  split; [exact wf_fresh|]. split; [exact Hroot|].
  destruct (mount_route_found
              Samples.csrf_app fresh_trie 0 Samples.static_route
              wf_fresh Hroot eq_refl)
    as (st' & l & n & rh & Hrun & Hrh & Hmr & Hn & Hm & Hs & Hstored
        & Hasgi & Hchild & _).
  injection Hrh as <-.
  exists st', l, n. split_and!; try assumption.
  - apply Hchild. discriminate.
  - by apply Hasgi.
  - apply Hstored. reflexivity.
Defined.

(** * Routes that meet at one node *)

Section sharing.
Implicit Types (h : list RouteTrieNode) (l : nat) (n : RouteTrieNode).

Lemma descend_grows h h' l keys x :
  grows h h' → descend h l keys = Some x → descend h' l keys = Some x.
Proof.
  intros Hg. revert l. induction keys as [|key keys IH]; intros l; simpl;
    [done|].
  destruct (child_of h l key) as [c|] eqn:Hc; simpl; [|done].
  rewrite (grows_child_of _ _ _ _ _ Hg Hc). simpl. apply IH.
Qed.

(** Where the keys lead somewhere already, the loop follows them and makes
    no node. *)
Lemma param_walk_existing components h l last :
  wf h → l < length h →
  descend h l (next_node_key <$> components) = Some last →
  ∃ h', param_walk h l components = Some (h', last)
        ∧ length h' = length h.
Proof.
  revert h l. induction components as [|c cs IH]; intros h l Hwf Hl Hd;
    simpl in *.
  - simplify_eq. by exists h.
  - destruct (child_of h l (next_node_key c)) as [c0|] eqn:Hc0;
      simpl in Hd; [|done].
    destruct (param_step_spec h l c Hwf Hl)
      as (h1 & next & Hstep & Hwf1 & Hnext & Hg & _ & Hdef & Hlen & _).
    rewrite Hc0 in Hdef, Hlen. simpl in Hdef. subst next.
    destruct (IH h1 c0 Hwf1 Hnext) as (h' & Hwalk & Hlen').
    { by eapply descend_grows. }
    exists h'. rewrite Hstep. simpl. split; [done|].
    rewrite Hlen', Hlen; [done|by eexists].
  Qed.

Lemma param_step_same_handlers h l component h' next :
  param_step h l component = Some (h', next) →
  pointwise same_handlers h h'.
Proof.
  rewrite param_step_unfold. intros Hrun.
  apply bind_Some in Hrun as (n & Hn & Hrun). simpl in Hrun.
  apply bind_Some in Hrun as (c & _ & Hrun).
  apply bind_Some in Hrun as (h4 & Hh4 & Hrun). simplify_eq.
  set (h0 := if decide (children n !! next_node_key component = None)
             then h ++ [create_node] else h) in *.
  assert (Hn0 : h0 !! l = Some n).
  { subst h0. case_decide; [by apply lookup_app_l_Some|done]. }
  assert (Htrans : ∀ a b c, same_handlers a b → same_handlers b c →
                            same_handlers a c).
  { unfold same_handlers. intros ??? [??] [??]. split; congruence. }
  assert (H3 : pointwise same_handlers h
                 (<[l := visited component (length h) n]> h0)).
  { intros l' n' Hn'. pose proof (lookup_lt_Some _ _ _ Hn0) as Hlt.
    assert (Hn0' : h0 !! l' = Some n').
    { subst h0. case_decide; [by apply lookup_app_l_Some|done]. }
    destruct (decide (l = l')) as [<-|Hne].
    - rewrite list_lookup_insert_eq by done. simplify_eq.
      eexists. split; [done|]. unfold same_handlers, visited.
      destruct component; simpl; by case_decide.
    - rewrite list_lookup_insert_ne by done. by exists n'. }
  destruct (is_path_component component); [|by simplify_eq].
  eapply pointwise_trans; [exact Htrans|exact H3|].
  refine (pointwise_upd _ _ _ _ _ _ _ Hh4); [done|by intros].
Qed.

Lemma param_walk_same_handlers components h l h' last :
  param_walk h l components = Some (h', last) →
  pointwise same_handlers h h'.
Proof.
  revert h l. induction components as [|c cs IH]; intros h l Hrun;
    simpl in Hrun.
  - simplify_eq. by apply pointwise_refl.
  - apply bind_Some in Hrun as ([h1 next] & Hstep & Hrun).
    eapply pointwise_trans; [|by eapply param_step_same_handlers
                             |by eapply IH].
    unfold same_handlers. intros ??? [??] [??]. split; congruence.
Qed.

Lemma stored_same_handlers app route key rh n n' :
  same_handlers n n' → stored app route key rh n →
  stored app route key rh n'.
Proof. unfold same_handlers, stored. by intros [-> ->]. Qed.

(** A registration stays when another route that does not declare its key
    is registered on the node. *)
Lemma stored_configure_node_other app route key rh route' n :
  declared_handler route' key = None →
  stored app route key rh n →
  stored app route key rh (configure_node app route' n).
Proof.
  intros Hnone [Hh (params & Hp & Hk)].
  destruct (configure_node_lookup app route' n key) as [Ha Hpp].
  rewrite Hnone in Ha, Hpp. split; [by rewrite Ha|].
  exists (path_parameters_of (configure_node app route' n)).
  split; [apply configure_node_path_parameters_Some|].
  rewrite Hpp. unfold path_parameters_of. by rewrite Hp.
Qed.
End sharing.

(** X10: two routes with path parameters whose components agree up to the
    names and types of the parameters (the same literals and parameters at
    the same positions) are registered on one node.  Adding the second
    makes no node and returns the node the first returned; that node then
    holds the second route's handlers, and those of the first under every
    key the second does not declare. *)
Theorem routes_of_one_shape_share_node
    (app : Starlite) (st : TrieState) (root : nat) (route1 route2 : Route) :
  wf (nodes st) →
  root < length (nodes st) →
  is_mount_route route1 = false → has_path_parameters route1 = true →
  is_mount_route route2 = false → has_path_parameters route2 = true →
  next_node_key <$> path_components route1
  = next_node_key <$> path_components route2 →
  ∃ st1 st2 l n,
    add_route_to_trie app st root route1 = Some (st1, l)
    ∧ add_route_to_trie app st1 root route2 = Some (st2, l)
    ∧ length (nodes st2) = length (nodes st1)
    ∧ nodes st2 !! l = Some n
    ∧ (∀ key rh, declared_handler route2 key = Some rh →
                 stored app route2 key rh n)
    ∧ (∀ key rh, declared_handler route1 key = Some rh →
                 declared_handler route2 key = None →
                 stored app route1 key rh n).
Proof.
  intros Hwf Hroot Hm1 Hp1 Hm2 Hp2 Hkeys.
  destruct (add_route_to_trie_param app st root route1 Hwf Hroot Hm1 Hp1)
    as (h1 & l & n1 & Hwalk1 & Hn1 & Hrun1).
  destruct (param_walk_spec (path_components route1) (nodes st) root
              Hwf Hroot)
    as (h1' & l' & Hwalk1' & Hwf1 & _ & Hg1 & Hdesc1 & _).
  rewrite Hwalk1 in Hwalk1'. symmetry in Hwalk1'. simplify_eq.
  set (st1 := {| nodes := <[l := configure_node app route1 n1]> h1;
                 mount_routes := mount_routes st;
                 plain_routes := plain_routes st |}) in *.
  pose proof (configure_node_children app route1 n1) as Hcc1.
  assert (Hwfst1 : wf (nodes st1)).
  { apply wf_insert; [done|]. intros key c. rewrite Hcc1.
    by eapply wf_lookup. }
  assert (Hroot1 : root < length (nodes st1)).
  { simpl. rewrite length_insert. apply grows_length in Hg1. lia. }
  assert (Hdesc : descend (nodes st1) root
                    (next_node_key <$> path_components route2) = Some l).
  { rewrite <- Hkeys. simpl.
    by rewrite (descend_insert_same_children _ _ _ _ _ _ Hn1). }
  destruct (param_walk_existing _ _ _ _ Hwfst1 Hroot1 Hdesc)
    as (h2 & Hwalk2 & Hlen2).
  destruct (add_route_to_trie_param app st1 root route2 Hwfst1 Hroot1
              Hm2 Hp2)
    as (h2' & l2 & n2 & Hwalk2' & Hn2 & Hrun2).
  rewrite Hwalk2 in Hwalk2'. symmetry in Hwalk2'. simplify_eq.
  eexists st1, _, l, _. split; [exact Hrun1|]. split; [exact Hrun2|].
  simpl. split_and!.
  - rewrite (length_insert h2). rewrite Hlen2. reflexivity.
  - apply list_lookup_insert_eq. by eapply lookup_lt_Some.
  - intros key rh. apply configure_node_stored_declared.
  - intros key rh Hd1 Hd2. apply stored_configure_node_other; [done|].
    destruct (param_walk_same_handlers _ _ _ _ _ Hwalk2 l
                (configure_node app route1 n1))
      as (n2' & Hn2' & Hsame).
    { simpl. apply list_lookup_insert_eq. by eapply lookup_lt_Some. }
    simplify_eq. eapply stored_same_handlers; [exact Hsame|].
    by apply configure_node_stored_declared.
Qed.

Lemma routes_of_one_shape_share_node_witness :
  wf (nodes fresh_trie)
  ∧ 0 < length (nodes fresh_trie)
  ∧ ∃ st1 st2 l n,
      add_route_to_trie Samples.full_app fresh_trie 0 Samples.user_route
      = Some (st1, l)
      ∧ add_route_to_trie Samples.full_app st1 0 Samples.member_route
        = Some (st2, l)
      ∧ length (nodes st2) = length (nodes st1)
      ∧ nodes st2 !! l = Some n
      ∧ stored Samples.full_app Samples.member_route "DELETE"
          Samples.plain_handler n
      ∧ stored Samples.full_app Samples.user_route "GET"
          Samples.plain_handler n.
Proof.
  assert (Hroot : 0 < length (nodes fresh_trie)) by (simpl; lia).
  split; [exact wf_fresh|]. split; [exact Hroot|].
  destruct (routes_of_one_shape_share_node
              Samples.full_app fresh_trie 0
              Samples.user_route Samples.member_route
              wf_fresh Hroot eq_refl eq_refl eq_refl eq_refl eq_refl)
    as (st1 & st2 & l & n & Hrun1 & Hrun2 & Hlen & Hn & Hs2 & Hs1).
  exists st1, st2, l, n. split_and!; try assumption.
  - apply Hs2. reflexivity.
  - apply Hs1; reflexivity.
Defined.

(** * Adding a route twice, and how many nodes a call makes *)

(** X11: adding a route that is no mount and has no path parameters a
    second time changes nothing: the call returns the same node and leaves
    the store and both indexes as the first call left them. *)
Theorem plain_route_added_twice
    (app : Starlite) (st : TrieState) (root : nat) (route : Route) :
  wf (nodes st) →
  root < length (nodes st) →
  is_mount_route route = false →
  has_path_parameters route = false →
  ∃ st' l,
    add_route_to_trie app st root route = Some (st', l)
    ∧ add_route_to_trie app st' root route = Some (st', l).
Proof.
  intros Hwf Hroot Hm Hp.
  destruct (add_route_to_trie_inv app st root route Hwf Hroot)
    as (st' & l & Hrun & _).
  exists st', l. split; [exact Hrun|].
  destruct (add_route_to_trie_result _ _ _ _ _ _ Hrun)
    as (_ & _ & Hpr & _ & Hchild).
  specialize (Hchild Hm Hp). rewrite Hm, Hp in Hpr. simpl in Hpr.
  destruct (add_route_to_trie_Some _ _ _ _ _ _ Hrun)
    as (st1 & n1 & _ & Hn1 & Hnodes).
  assert (Hl : nodes st' !! l = Some (configure_node app route n1)).
  { rewrite Hnodes. apply list_lookup_insert_eq. by eapply lookup_lt_Some. }
  unfold child_of in Hchild.
  destruct (nodes st' !! root) as [r'|] eqn:Hr'; simpl in Hchild; [|done].
  unfold add_route_to_trie. rewrite Hm, Hp. simpl.
  rewrite (add_plain_route_reuse st' root route r' Hr' l Hchild). simpl.
  rewrite (upd_eq _ _ _ _ Hl). simpl.
  rewrite configure_node_twice, (list_insert_id _ _ _ Hl).
  do 2 f_equal. destruct st' as [h mr pr]. simpl in *. f_equal.
  rewrite Hpr. set_solver.
Qed.

Lemma plain_route_added_twice_witness :
  wf (nodes fresh_trie)
  ∧ 0 < length (nodes fresh_trie)
  ∧ ∃ st' l,
      add_route_to_trie Samples.csrf_app fresh_trie 0 Samples.health_route
      = Some (st', l)
      ∧ add_route_to_trie Samples.csrf_app st' 0 Samples.health_route
        = Some (st', l).
Proof.
  assert (Hroot : 0 < length (nodes fresh_trie)) by (simpl; lia).
  split; [exact wf_fresh|]. split; [exact Hroot|].
  exact (plain_route_added_twice
           Samples.csrf_app fresh_trie 0 Samples.health_route
           wf_fresh Hroot eq_refl eq_refl).
Defined.

Section allocation.
Implicit Types (h : list RouteTrieNode) (l : nat).

Lemma mount_walk_length components h l h' last :
  mount_walk h l components = Some (h', last) →
  length h' ≤ length h + length components.
Proof.
  revert h l. induction components as [|c cs IH]; intros h l Hrun;
    simpl in Hrun.
  - simplify_eq. lia.
  - apply bind_Some in Hrun as ([h1 next] & Hstep & Hrun).
    apply IH in Hrun. unfold mount_step in Hstep.
    apply bind_Some in Hstep as (h1' & Hens & Hstep).
    apply bind_Some in Hstep as (c' & _ & Hstep). simplify_eq.
    pose proof (ensure_child_length _ _ _ _ Hens) as Hlen.
    case_decide; simpl; lia.
Qed.

Lemma param_step_length h l component h' next :
  param_step h l component = Some (h', next) →
  length h' ≤ S (length h).
Proof.
  rewrite param_step_unfold. intros Hrun.
  apply bind_Some in Hrun as (n & Hn & Hrun). simpl in Hrun.
  apply bind_Some in Hrun as (c & _ & Hrun).
  apply bind_Some in Hrun as (h4 & Hh4 & Hrun). simplify_eq.
  assert (Hlen : length (<[l := visited component (length h) n]>
                           (if decide (children n
                                       !! next_node_key component = None)
                            then h ++ [create_node] else h))
                 ≤ S (length h)).
  { rewrite length_insert. case_decide; [|lia].
    rewrite length_app. simpl. lia. }
  destruct (is_path_component component).
  - apply upd_length in Hh4. lia.
  - by simplify_eq.
Qed.

Lemma param_walk_length components h l h' last :
  param_walk h l components = Some (h', last) →
  length h' ≤ length h + length components.
Proof.
  revert h l. induction components as [|c cs IH]; intros h l Hrun;
    simpl in Hrun.
  - simplify_eq. lia.
  - apply bind_Some in Hrun as ([h1 next] & Hstep & Hrun).
    apply IH in Hrun. apply param_step_length in Hstep. simpl. lia.
Qed.

Lemma mark_mount_length h1 st root cur route st' l :
  mark_mount h1 st root cur route = Some (st', l) →
  length (nodes st') = length h1.
Proof.
  unfold mark_mount. intros Hrun.
  apply bind_Some in Hrun as (h2 & Hh2%upd_length & Hrun).
  apply bind_Some in Hrun as (rh & _ & Hrun).
  apply bind_Some in Hrun as (h3 & Hh3%upd_length & Hrun).
  case_decide.
  - apply bind_Some in Hrun as (h4 & Hh4%upd_length & Hrun).
    simplify_eq. simpl. lia.
  - simplify_eq. simpl. lia.
Qed.
End allocation.

(** X12: a call makes few nodes and removes none.  The store grows by at
    most one node per component for a route with path parameters or a
    mount, by at most one node for any other route, and not at all for a
    mount whose path is a child key of the root already. *)
Theorem add_route_to_trie_allocation
    (app : Starlite) (st : TrieState) (root : nat) (route : Route) :
  wf (nodes st) →
  root < length (nodes st) →
  ∃ st' l,
    add_route_to_trie app st root route = Some (st', l)
    ∧ length (nodes st) ≤ length (nodes st')
    ∧ length (nodes st') ≤ length (nodes st) + new_nodes_bound st root route.
Proof.
  intros Hwf Hroot.
  destruct (add_route_to_trie_inv app st root route Hwf Hroot)
    as (st' & l & Hrun & _ & _ & Hlen & _).
  exists st', l. split; [done|]. split; [done|].
  destruct (add_route_to_trie_Some _ _ _ _ _ _ Hrun)
    as (st1 & n1 & Hbranch & _ & ->).
  rewrite length_insert. unfold new_nodes_bound.
  destruct (is_mount_route route).
  - unfold add_mount_route in Hbranch.
    apply bind_Some in Hbranch as (r & Hr & Hbranch).
    apply bind_Some in Hbranch as ([[h1 root'] cur] & Hloop & Hmark).
    apply mark_mount_length in Hmark. rewrite Hmark.
    unfold child_of. rewrite Hr. simpl. case_decide as Hk.
    + rewrite Hk.
      apply bind_Some in Hloop as ([h' last] & Hwalk & Hloop).
      simplify_eq. by eapply mount_walk_length.
    + simplify_eq.
      destruct (children r !! KStr (path route)); [lia|done].
  - destruct (has_path_parameters route); simpl in Hbranch.
    + unfold add_param_route in Hbranch.
      apply bind_Some in Hbranch as ([h1 last] & Hwalk & Hbranch).
      simplify_eq. simpl. by eapply param_walk_length.
    + unfold add_plain_route in Hbranch.
      apply bind_Some in Hbranch as (h1 & Hens & Hbranch).
      apply bind_Some in Hbranch as (c & _ & Hbranch). simplify_eq. simpl.
      rewrite (ensure_child_length _ _ _ _ Hens). case_decide; lia.
Qed.

Lemma add_route_to_trie_allocation_witness :
  wf (nodes Samples.health_trie)
  ∧ 0 < length (nodes Samples.health_trie)
  ∧ ∃ st' l,
      add_route_to_trie Samples.full_app Samples.health_trie 0
        Samples.clash_route = Some (st', l)
      ∧ length (nodes st') = length (nodes Samples.health_trie).
Proof.
  assert (Hwf : wf (nodes Samples.health_trie)).
  { destruct (add_route_to_trie_inv Samples.csrf_app fresh_trie 0
                Samples.health_route wf_fresh)
      as (st1 & l & Hrun & Hwf1 & _); [simpl; lia|].
    unfold Samples.health_trie. rewrite Hrun. exact Hwf1. }
  assert (Hroot : 0 < length (nodes Samples.health_trie))
    by (vm_compute; lia).
  split; [exact Hwf|]. split; [exact Hroot|].
  destruct (add_route_to_trie_allocation
              Samples.full_app Samples.health_trie 0 Samples.clash_route
              Hwf Hroot)
    as (st' & l & Hrun & Hlo & Hhi).
  exists st', l. split; [exact Hrun|].
  vm_compute in Hhi. vm_compute in Hlo. vm_compute. lia.
Defined.
